(** * reghost: matcher, DNS handler, resolver manager and server set-up

    A shallow embedding of the Go sources of reghost
    ([pkg/reghost], [internal/dns], [internal/resolver]) together with the
    properties of its specification.

    Conventions of the embedding.
    - A Go [string] is a byte string, here [string] (a list of [ascii]).
    - Go library code the repository calls but does not contain is either
      embedded from its documented behaviour (package [strings],
      [filepath.Join]) or, where that behaviour is a table or an engine
      (Unicode case mapping, the [regexp] engine), taken as a field of the
      class [GoLib].
    - The operating system is an explicit [World]: the files under the
      resolver directory, the paths on which a modifying command fails, and
      the trace of the modifying commands that succeeded.
    - Log output is not modelled.  *)

From Stdlib Require Import ZArith NArith Lia Ascii Bool DecimalString.
From Stdlib Require Strings.Byte.
From Stdlib Require String.
From stdpp Require Import base option list gmap strings fin_maps.

Local Open Scope Z_scope.

(* ================================================================== *)
(** ** Go library interface *)

(** The parts of Go's library whose results the embedding does not compute:
    the [regexp] engine and the rune-wise paths that package [strings] takes
    on a string containing a byte outside ASCII. *)
Class GoLib := {
  (** a compiled pattern, [regexp.Regexp] *)
  Regexp : Type;
  (** [regexp.Compile]; [None] is a compile error *)
  regexp_Compile : string → option Regexp;
  (** the method [MatchString] of [Regexp] *)
  regexp_MatchString : Regexp → string → bool;
  (** [strings.Map(unicode.ToLower, s)] *)
  unicode_ToLower : string → string;
  (** [strings.Map(unicode.ToUpper, s)] *)
  unicode_ToUpper : string → string;
  (** [strings.TrimFunc(s, unicode.IsSpace)] *)
  unicode_TrimSpace : string → string;
  (** [strings.TrimRightFunc(s, unicode.IsSpace)] *)
  unicode_TrimRightSpace : string → string;
}.

(* ================================================================== *)
(** ** Package [strings] *)

Module strings.

Definition byteval (c : ascii) : N := N_of_ascii c.

(** [c < utf8.RuneSelf] *)
Definition isASCIIbyte (c : ascii) : bool := (byteval c <? 128)%N.

Fixpoint isASCII (s : string) : bool :=
  match s with
  | EmptyString => true
  | String c r => isASCIIbyte c && isASCII r
  end.

Fixpoint mapBytes (f : ascii → ascii) (s : string) : string :=
  match s with
  | EmptyString => EmptyString
  | String c r => String (f c) (mapBytes f r)
  end.

(** ['A' <= c && c <= 'Z'] then [c += 'a' - 'A'] *)
Definition lowerByte (c : ascii) : ascii :=
  if ((65 <=? byteval c) && (byteval c <=? 90))%N
  then ascii_of_N (byteval c + 32) else c.

(** ['a' <= c && c <= 'z'] then [c -= 'a' - 'A'] *)
Definition upperByte (c : ascii) : ascii :=
  if ((97 <=? byteval c) && (byteval c <=? 122))%N
  then ascii_of_N (byteval c - 32) else c.

Definition HasPrefix (s prefix : string) : bool := String.prefix prefix s.

(** Some tail of [s] is [suffix]. *)
Fixpoint HasSuffix (s suffix : string) : bool :=
  String.eqb s suffix ||
  match s with
  | EmptyString => false
  | String _ r => HasSuffix r suffix
  end.

Definition TrimPrefix (s prefix : string) : string :=
  if HasPrefix s prefix
  then String.substring (String.length prefix)
                        (String.length s - String.length prefix) s
  else s.

Definition TrimSuffix (s suffix : string) : string :=
  if HasSuffix s suffix
  then String.substring 0 (String.length s - String.length suffix) s
  else s.

Fixpoint Contains (s substr : string) : bool :=
  String.prefix substr s ||
  match s with
  | EmptyString => false
  | String _ r => Contains r substr
  end.

(** [ReplaceAll] for a non-empty [old]: the occurrences are taken from the
    left and do not overlap; after one is found its remaining
    [len(old) - 1] bytes are skipped. *)
Fixpoint replaceFrom (old new : string) (skip : nat) (s : string) : string :=
  match s with
  | EmptyString => EmptyString
  | String c r =>
      match skip with
      | S k => replaceFrom old new k r
      | O =>
          if String.prefix old s
          then new +:+ replaceFrom old new (String.length old - 1) r
          else String c (replaceFrom old new 0 r)
      end
  end.

Definition ReplaceAll (s old new : string) : string :=
  replaceFrom old new 0 s.

(** [Split] for a non-empty separator; [cur] is the piece being read, in
    reverse. *)
Fixpoint splitFrom (sep cur : string) (skip : nat) (s : string)
  : list string :=
  match s with
  | EmptyString => [String.rev cur]
  | String c r =>
      match skip with
      | S k => splitFrom sep cur k r
      | O =>
          if String.prefix sep s
          then String.rev cur
               :: splitFrom sep EmptyString (String.length sep - 1) r
          else splitFrom sep (String c cur) 0 r
      end
  end.

Definition Split (s sep : string) : list string :=
  splitFrom sep EmptyString 0 s.

Fixpoint Join (elems : list string) (sep : string) : string :=
  match elems with
  | [] => EmptyString
  | [x] => x
  | x :: rest => x +:+ sep +:+ Join rest sep
  end.

(** The table [asciiSpace]: tab, newline, vertical tab, form feed,
    carriage return and space. *)
Definition asciiSpace (c : ascii) : bool :=
  match byteval c with
  | 9 | 10 | 11 | 12 | 13 | 32 => true
  | _ => false
  end%N.

Section WithLib.
Context {L : GoLib}.

(** ASCII-only strings are mapped byte by byte; any other string goes
    through [Map(unicode.ToLower, s)]. *)
Definition ToLower (s : string) : string :=
  if isASCII s then mapBytes lowerByte s else unicode_ToLower s.

Definition ToUpper (s : string) : string :=
  if isASCII s then mapBytes upperByte s else unicode_ToUpper s.

(** Second loop of [TrimSpace], over the reversed remainder [rs]:
    [stop] moves left over ASCII space; a non-ASCII byte hands
    [s[start:stop]] to [TrimRightFunc]. *)
Fixpoint trimSpaceRight (rs : string) : string :=
  match rs with
  | EmptyString => EmptyString
  | String c r =>
      if negb (isASCIIbyte c) then unicode_TrimRightSpace (String.rev rs)
      else if asciiSpace c then trimSpaceRight r
      else String.rev rs
  end.

(** First loop of [TrimSpace]: [start] moves right over ASCII space; a
    non-ASCII byte hands [s[start:]] to [TrimFunc]. *)
Fixpoint TrimSpace (s : string) : string :=
  match s with
  | EmptyString => EmptyString
  | String c r =>
      if negb (isASCIIbyte c) then unicode_TrimSpace s
      else if asciiSpace c then TrimSpace r
      else trimSpaceRight (String.rev s)
  end.
End WithLib.

End strings.


(* ================================================================== *)
(** ** Package [reghost]: records, matcher, resolver *)

Module reghost.

(** [type Record struct { Domain, IP string }] *)
Record Record_ := { Domain : string; IP : string }.

Section WithLib.
Context {L : GoLib}.

(** [Matcher]: the record slice and the cache of compiled patterns, keyed by
    the pattern text. *)
Record Matcher := {
  records : list Record_;
  regexCache : gmap string Regexp;
}.

(** One iteration of the loop of [compilePatterns]. *)
Definition compilePattern (cache : gmap string Regexp) (record : Record_)
  : gmap string Regexp :=
  if strings.HasPrefix (Domain record) "^" then
    match regexp_Compile (Domain record) with
    | Some re => <[Domain record := re]> cache
    | None => cache
    end
  else cache.

Definition compilePatterns (m : Matcher) : Matcher :=
  {| records := records m;
     regexCache := foldl compilePattern (regexCache m) (records m) |}.

Definition NewMatcher (rs : list Record_) : Matcher :=
  compilePatterns {| records := rs; regexCache := ∅ |}.

(** The two normalisation steps [Match] applies to the query and to every
    record domain: lower case, then a trailing dot unless one is there. *)
Definition fqdn (domain : string) : string :=
  let domain := strings.ToLower domain in
  if negb (strings.HasSuffix domain ".") then domain +:+ "." else domain.

(** The body of the loop of [Match] for one record: [true] when the loop
    returns at this record; [domain] is the normalised query. *)
Definition matchesRecord (cache : gmap string Regexp) (domain : string)
  (record : Record_) : bool :=
  if String.eqb (fqdn (Domain record)) domain then true
  else
    match cache !! Domain record with
    | Some re => regexp_MatchString re domain
    | None => false
    end.

Fixpoint matchLoop (cache : gmap string Regexp) (domain : string)
  (rs : list Record_) : string * bool :=
  match rs with
  | [] => (EmptyString, false)
  | record :: rest =>
      if matchesRecord cache domain record then (IP record, true)
      else matchLoop cache domain rest
  end.

Definition Match (m : Matcher) (domain : string) : string * bool :=
  matchLoop (regexCache m) (fqdn domain) (records m).

(** [Update] assigns the record slice, replaces the cache by a fresh map and
    compiles the patterns of the new records. *)
Definition Update (m : Matcher) (rs : list Record_) : Matcher :=
  compilePatterns {| records := rs; regexCache := ∅ |}.

Definition GetRecords (m : Matcher) : list Record_ := records m.

(** [Resolver] wraps one matcher. *)
Record Resolver := { matcher : Matcher }.

Definition NewResolver (rs : list Record_) : Resolver :=
  {| matcher := NewMatcher rs |}.

Definition Resolve (r : Resolver) (domain : string) : string * bool :=
  Match (matcher r) domain.

Definition UpdateRecords (r : Resolver) (rs : list Record_) : Resolver :=
  {| matcher := Update (matcher r) rs |}.

End WithLib.

Arguments Matcher {L}.
Arguments Resolver {L}.

End reghost.

(* ================================================================== *)
(** ** Package [dns] (internal): cache and query handler *)

(** The fields of [miekg/dns] messages the handler reads or writes.  The
    address of an answer is the value [net.ParseIP] returns for the matched
    text; the parser is not part of the repository, so the record keeps the
    call itself. *)
Module miekg.

Definition TypeA : Z := 1.
Definition TypeAAAA : Z := 28.
Definition ClassINET : Z := 1.
Definition RcodeSuccess : Z := 0.
Definition RcodeNameError : Z := 3.

Record Question := { Name : string; Qtype : Z; Qclass : Z }.

Inductive NetIP := ParseIP (s : string).

Record RR_Header := { HName : string; Rrtype : Z; Class : Z; Ttl : Z }.

(** The resource record [dns.A]. *)
Record A := { Hdr : RR_Header; Addr : NetIP }.

Record Msg := {
  Id : Z;
  Response : bool;
  Rcode : Z;
  Questions : list Question;
  Answer : list A;
}.

(** [SetReply]: a reply to [request] with code [RcodeSuccess], carrying the
    first question of the request; the answer section is not touched. *)
Definition SetReply (m request : Msg) : Msg :=
  {| Id := Id request;
     Response := true;
     Rcode := RcodeSuccess;
     Questions := match Questions request with
                  | q :: _ => [q]
                  | [] => Questions m
                  end;
     Answer := Answer m |}.

(** [SetRcode] is [SetReply] followed by the assignment of the code. *)
Definition SetRcode (m request : Msg) (rcode : Z) : Msg :=
  let m := SetReply m request in
  {| Id := Id m; Response := Response m; Rcode := rcode;
     Questions := Questions m; Answer := Answer m |}.

(** [new(dns.Msg)] *)
Definition newMsg : Msg :=
  {| Id := 0; Response := false; Rcode := 0; Questions := []; Answer := [] |}.

End miekg.

Module dns.
Import reghost miekg.

Section WithLib.
Context {L : GoLib}.

Record Cache := { resolver : Resolver }.

Definition NewCache (rs : list Record_) : Cache :=
  {| resolver := NewResolver rs |}.

Definition Lookup (c : Cache) (domain : string) : string * bool :=
  Resolve (resolver c) domain.

Definition CacheUpdate (c : Cache) (rs : list Record_) : Cache :=
  {| resolver := UpdateRecords (resolver c) rs |}.

Definition CacheGetRecords (c : Cache) : list Record_ :=
  GetRecords (matcher (resolver c)).

(** The body of the loop of [ServeDNS] for one question [q]; [m] is the
    reply under construction and [r] the request. *)
Definition serveQuestion (c : Cache) (r : Msg) (m : Msg) (q : Question)
  : Msg :=
  let qname := strings.ToLower (Name q) in
  if negb (Qtype q =? TypeA) then m
  else
    match Lookup c qname with
    | (ip, true) =>
        let rr := {| Hdr := {| HName := Name q; Rrtype := TypeA;
                               Class := ClassINET; Ttl := 300 |};
                     Addr := ParseIP ip |} in
        {| Id := Id m; Response := Response m; Rcode := Rcode m;
           Questions := Questions m; Answer := Answer m ++ [rr] |}
    | (_, false) => SetRcode m r RcodeNameError
    end.

(** [ServeDNS] returns the message handed to [WriteMsg]. *)
Definition ServeDNS (c : Cache) (r : Msg) : Msg :=
  foldl (serveQuestion c r) (SetReply newMsg r) (Questions r).

End WithLib.

Arguments Cache {L}.

End dns.


(* ================================================================== *)
(** ** Package [path/filepath] *)

Module filepath.

(** One path element met by the loop of [Clean]; [stack] holds the elements
    kept so far, last first.  An empty element and [.] are dropped; [..]
    removes the last kept element, is dropped at the root, and is kept in
    front of a relative path. *)
Definition cleanStep (rooted : bool) (stack : list string) (elem : string)
  : list string :=
  if String.eqb elem "" || String.eqb elem "." then stack
  else if String.eqb elem ".." then
    match stack with
    | top :: rest =>
        if String.eqb top ".." then ".." :: stack else rest
    | [] => if rooted then [] else [".."]
    end
  else elem :: stack.

Definition Clean (path : string) : string :=
  if String.eqb path "" then "."
  else
    let rooted := strings.HasPrefix path "/" in
    let kept := foldl (cleanStep rooted) [] (strings.Split path "/") in
    let body := strings.Join (rev kept) "/" in
    if rooted then "/" +:+ body
    else if String.eqb body "" then "." else body.

Fixpoint dropEmpty (elem : list string) : list string :=
  match elem with
  | [] => []
  | e :: rest => if String.eqb e "" then dropEmpty rest else elem
  end.

(** [Join]: leading empty elements are ignored, the rest is joined with the
    separator and cleaned. *)
Definition Join (elem : list string) : string :=
  match dropEmpty elem with
  | [] => ""
  | rest => Clean (strings.Join rest "/")
  end.

End filepath.

(* ================================================================== *)
(** ** The operating system *)

(** The commands the daemon runs ([tee], [rm -f], [mkdir -p], [cat], the
    cache flush) act on a [World].  A modifying command fails exactly on the
    paths in [readonly] and then changes nothing; each one that succeeds is
    appended to [trace]. *)
Module os.

Inductive Event :=
| EvMkdir (dir : string)
| EvWrite (path content : string)
| EvRemove (path : string)
| EvFlush.

Record World := {
  files : gmap string string;
  dirs : gset string;
  readonly : gset string;
  trace : list Event;
}.

(** Go's [error], reduced to whether there is one. *)
Inductive error := nil | failure (what : string).

Definition isNil (e : error) : bool :=
  match e with nil => true | failure _ => false end.

Definition emit (e : Event) (w : World) : World :=
  {| files := files w; dirs := dirs w; readonly := readonly w;
     trace := trace w ++ [e] |}.

(** [os.ReadFile], and the output of [cat path]. *)
Definition ReadFile (w : World) (path : string) : option string :=
  files w !! path.

(** [os.Stat] finds the directory. *)
Definition dirExists (w : World) (dir : string) : bool :=
  bool_decide (dir ∈ dirs w).

(** [tee path] with [content] on its standard input. *)
Definition tee (path content : string) (w : World) : bool * World :=
  if bool_decide (path ∈ readonly w) then (false, w)
  else (true, emit (EvWrite path content)
                {| files := <[path := content]> (files w); dirs := dirs w;
                   readonly := readonly w; trace := trace w |}).

(** [rm -f path]: succeeds also when there is no such file. *)
Definition rm_f (path : string) (w : World) : bool * World :=
  if bool_decide (path ∈ readonly w) then (false, w)
  else (true, emit (EvRemove path)
                {| files := delete path (files w); dirs := dirs w;
                   readonly := readonly w; trace := trace w |}).

Definition mkdir_p (dir : string) (w : World) : bool * World :=
  if bool_decide (dir ∈ readonly w) then (false, w)
  else (true, emit (EvMkdir dir)
                {| files := files w; dirs := {[dir]} ∪ dirs w;
                   readonly := readonly w; trace := trace w |}).

Definition isWrite (e : Event) : bool :=
  match e with EvWrite _ _ => true | _ => false end.
Definition isRemove (e : Event) : bool :=
  match e with EvRemove _ => true | _ => false end.
Definition isFlush (e : Event) : bool :=
  match e with EvFlush => true | _ => false end.

(** Number of events of a kind in a trace. *)
Definition count (p : Event → bool) (t : list Event) : nat :=
  length (filter (λ e, p e = true) t).

End os.


(* ================================================================== *)
(** ** Package [resolver]: the per-suffix resolver files *)

Module resolver.
Import reghost os.

Definition macOSResolverDir : string := "/etc/resolver".

Record Manager := {
  bindIP : string;
  managedDomains : gmap string bool;
  resolverFilesDir : string;
}.

Definition NewManager (ip : string) : Manager :=
  {| bindIP := ip; managedDomains := ∅;
     resolverFilesDir := macOSResolverDir |}.

Definition setManaged (m : Manager) (d : gmap string bool) : Manager :=
  {| bindIP := bindIP m; managedDomains := d;
     resolverFilesDir := resolverFilesDir m |}.

(** [m[key]] on a [map[string]bool]: [false] for a missing key. *)
Definition index (m : gmap string bool) (key : string) : bool :=
  default false (m !! key).

(** The keys a [range] over the map visits.  Go leaves the order open; the
    embedding takes the order of [map_to_list], and the facts proved about
    the two loops of [UpdateResolverFiles] hold for any list of keys. *)
Definition rangeKeys (m : gmap string bool) : list string :=
  (map_to_list m).*1.

Definition newline : ascii := ascii_of_N 10.
Definition nl : string := String newline EmptyString.

(** Length of the shortest prefix [x ++ close] of [s] with no newline in
    [x]: where the lazy [.*?] followed by [close] stops. *)
Fixpoint lazyEnd (close : string) (s : string) : option nat :=
  if String.prefix close s then Some (String.length close)
  else
    match s with
    | EmptyString => None
    | String c r =>
        if Ascii.eqb c newline then None else S <$> lazyEnd close r
    end.

(** [regexp.MustCompile(open .*? close).ReplaceAllString(s, "")] for a
    one-byte [open] and a literal [close]: the leftmost matches, each as
    short as possible, are deleted. *)
Fixpoint removeSpans (open : ascii) (close : string) (skip : nat)
  (s : string) : string :=
  match s with
  | EmptyString => EmptyString
  | String c r =>
      match skip with
      | S k => removeSpans open close k r
      | O =>
          if Ascii.eqb c open then
            match lazyEnd close r with
            | Some n => removeSpans open close n r
            | None => String c (removeSpans open close 0 r)
            end
          else String c (removeSpans open close 0 r)
      end
  end.

Section WithLib.
Context {L : GoLib}.

(** The loop that filters out the empty parts. *)
Fixpoint cleanParts (parts : list string) : list string :=
  match parts with
  | [] => []
  | part :: rest =>
      let part := strings.TrimSpace part in
      if negb (String.eqb part "") then part :: cleanParts rest
      else cleanParts rest
  end.

Definition extractSuffix (pattern : string) : string :=
  let pattern := strings.TrimSuffix pattern "." in
  let pattern := strings.TrimPrefix pattern "^" in
  let pattern := strings.TrimSuffix pattern "$" in
  let pattern := strings.ReplaceAll pattern "\." "." in
  let pattern := removeSpans "[" "]" 0 pattern in
  let pattern := removeSpans "(" ")+" 0 pattern in
  let pattern := removeSpans "(" ")*" 0 pattern in
  let pattern := removeSpans "(" ")?" 0 pattern in
  let pattern := strings.ReplaceAll pattern "+" "" in
  let pattern := strings.ReplaceAll pattern "*" "" in
  let pattern := strings.ReplaceAll pattern "?" "" in
  let pattern := strings.ReplaceAll pattern "(" "" in
  let pattern := strings.ReplaceAll pattern ")" "" in
  let pattern := strings.ReplaceAll pattern "|" "" in
  let parts := strings.Split pattern "." in
  let cleanParts := cleanParts parts in
  if (length cleanParts =? 0)%nat then ""
  else if (1 <=? length cleanParts)%nat then default "" (last cleanParts)
  else "".

(** One iteration of the first loop of [extractDomainSuffixes]. *)
Definition addSuffix (suffixMap : gmap string bool) (record : Record_)
  : gmap string bool :=
  let domain := Domain record in
  if String.eqb domain "" then suffixMap
  else
    let suffix := extractSuffix domain in
    if negb (String.eqb suffix "") then <[suffix := true]> suffixMap
    else suffixMap.

Definition extractDomainSuffixes (rs : list Record_) : list string :=
  rangeKeys (foldl addSuffix ∅ rs).

End WithLib.

Definition ensureResolverDir (m : Manager) (w : World) : error * World :=
  if negb (dirExists w (resolverFilesDir m)) then
    match mkdir_p (resolverFilesDir m) w with
    | (true, w) => (nil, w)
    | (false, w) => (failure "failed to create directory", w)
    end
  else (nil, w).

Definition expectedContent (m : Manager) : string :=
  "nameserver " +:+ bindIP m +:+ nl +:+ "port 53" +:+ nl.

Definition hintPath (m : Manager) (suffix : string) : string :=
  filepath.Join [resolverFilesDir m; suffix].

Definition createResolverFile (m : Manager) (suffix : string) (w : World)
  : error * World :=
  let filePath := hintPath m suffix in
  let write :=
    match tee filePath (expectedContent m) w with
    | (true, w) => (nil, w)
    | (false, w) => (failure "failed to write resolver file", w)
    end in
  match ReadFile w filePath with
  | Some existingContent =>
      if String.eqb existingContent (expectedContent m) then (nil, w)
      else write
  | None => write
  end.

Definition removeResolverFile (m : Manager) (suffix : string) (w : World)
  : error * Manager * World :=
  let filePath := hintPath m suffix in
  match rm_f filePath w with
  | (true, w) => (nil, setManaged m (delete suffix (managedDomains m)), w)
  | (false, w) => (failure "failed to remove resolver file", m, w)
  end.

(** [flushDNSCache] runs the two flush commands and ignores their results;
    one call is one [EvFlush]. *)
Definition flushDNSCache (w : World) : World := emit EvFlush w.

(** State of the first loop of [UpdateResolverFiles]. *)
Record CreateState := {
  newDomains : gmap string bool;
  changesMade : bool;
  world : World;
}.

Definition createStep (m : Manager) (st : CreateState) (suffix : string)
  : CreateState :=
  let isNew := negb (index (managedDomains m) suffix) in
  match createResolverFile m suffix (world st) with
  | (failure _, w) =>
      {| newDomains := newDomains st; changesMade := changesMade st;
         world := w |}
  | (nil, w) =>
      {| newDomains := <[suffix := true]> (newDomains st);
         changesMade := if isNew then true else changesMade st;
         world := w |}
  end.

(** State of the second loop: the flag, the manager (whose map shrinks as
    files are removed) and the world. *)
Definition removeStep (newDomains : gmap string bool)
  (st : bool * Manager * World) (domain : string) : bool * Manager * World :=
  let '(changed, m, w) := st in
  if negb (index newDomains domain) then
    match removeResolverFile m domain w with
    | (failure _, m, w) => (changed, m, w)
    | (nil, m, w) => (true, m, w)
    end
  else st.

Section WithLib.
Context {L : GoLib}.

Definition UpdateResolverFiles (m : Manager) (rs : list Record_) (w : World)
  : error * Manager * World :=
  let suffixes := extractDomainSuffixes rs in
  if (length suffixes =? 0)%nat then (nil, m, w)
  else
    match ensureResolverDir m w with
    | (failure _, w) =>
        (failure "failed to ensure resolver directory", m, w)
    | (nil, w) =>
        let st := foldl (createStep m)
                    {| newDomains := ∅; changesMade := false; world := w |}
                    suffixes in
        let '(changed, m', w) :=
          foldl (removeStep (newDomains st)) (changesMade st, m, world st)
            (rangeKeys (managedDomains m)) in
        let m' := setManaged m' (newDomains st) in
        if changed then (nil, m', flushDNSCache w) else (nil, m', w)
    end.

End WithLib.

Definition cleanupStep (st : Manager * World) (domain : string)
  : Manager * World :=
  let '(m, w) := st in
  let '(_, m, w) := removeResolverFile m domain w in (m, w).

Definition CleanupAll (m : Manager) (w : World) : error * Manager * World :=
  let '(m, w) := foldl cleanupStep (m, w) (rangeKeys (managedDomains m)) in
  (nil, setManaged m ∅, flushDNSCache w).

Definition GetManagedDomains (m : Manager) : list string :=
  rangeKeys (managedDomains m).

End resolver.


(* ================================================================== *)
(** ** Package [dns] (internal): the server's loopback address and the
       shared resolver file *)

Module server.
Import os.

(** [runtime.GOOS] *)
Inductive GOOS := darwin | linux | otherOS.

(** What one iteration of the allocation loop gets from outside: the three
    results of [rand.Intn(256)], the output of the interface listing
    ([None] when the command fails) and whether the alias command
    succeeds. *)
Record Attempt := {
  octets : Init.Byte.byte * Init.Byte.byte * Init.Byte.byte;
  probeOutput : option string;
  aliasAdded : bool;
}.

(** [%d] of a value in 0..255 *)
Definition itoa (b : Init.Byte.byte) : string :=
  NilEmpty.string_of_uint (N.to_uint (Strings.Byte.to_N b)).

(** [fmt.Sprintf("127.%d.%d.%d", a, b, c)] *)
Definition candidate (a : Attempt) : string :=
  let '(x, y, z) := octets a in
  "127." +:+ itoa x +:+ "." +:+ itoa y +:+ "." +:+ itoa z.

Definition isIPInUse (goos : GOOS) (a : Attempt) (ip : string) : bool :=
  match goos with
  | darwin =>
      match probeOutput a with
      | None => false
      | Some output => strings.Contains output ip
      end
  | linux =>
      match probeOutput a with
      | None => false
      | Some output => strings.Contains output ip
      end
  | otherOS => false
  end.

Definition addLoopbackAlias (goos : GOOS) (a : Attempt) (ip : string)
  : error :=
  match goos with
  | darwin => if aliasAdded a then nil else failure "ifconfig failed"
  | linux => if aliasAdded a then nil else failure "ip addr add failed"
  | otherOS => failure "unsupported OS"
  end.

Definition maxAttempts : nat := 100.

(** The loop of [bindLoopbackIP] from iteration [i], with [togo] iterations
    left; [env i] is what iteration [i] gets from outside. *)
Fixpoint bindLoop (goos : GOOS) (env : nat → Attempt) (i togo : nat)
  : string * error :=
  match togo with
  | O => ("", failure "failed to find available loopback IP")
  | S togo =>
      let ip := candidate (env i) in
      if String.eqb ip "127.0.0.1" then bindLoop goos env (S i) togo
      else if isIPInUse goos (env i) ip then bindLoop goos env (S i) togo
      else
        match addLoopbackAlias goos (env i) ip with
        | failure _ => bindLoop goos env (S i) togo
        | nil => (ip, nil)
        end
  end.

Definition bindLoopbackIP (goos : GOOS) (env : nat → Attempt)
  : string * error :=
  bindLoop goos env 0 maxAttempts.

(** The fields of [Server] the resolver set-up uses. *)
Record Server := {
  bindIP : string;
  resolverConfigured : bool;
  originalResolvConf : option string;
}.

Definition resolvConfFile : string := "/etc/resolv.conf".

Definition nameserverEntry (s : Server) : string :=
  "nameserver " +:+ bindIP s.

Definition nl : string := String (ascii_of_N 10) EmptyString.

Section WithLib.
Context {L : GoLib}.

(** The loop over the lines: some line is the entry once trimmed. *)
Definition hasEntry (lines : list string) (entry : string) : bool :=
  existsb (λ line, String.eqb (strings.TrimSpace line) entry) lines.

Definition configureLinuxResolver (s : Server) (w : World)
  : error * Server * World :=
  match ReadFile w resolvConfFile with
  | None => (failure "failed to read", s, w)
  | Some content =>
      let s := {| bindIP := bindIP s;
                  resolverConfigured := resolverConfigured s;
                  originalResolvConf := Some content |} in
      let configured := {| bindIP := bindIP s; resolverConfigured := true;
                           originalResolvConf := originalResolvConf s |} in
      let lines := strings.Split content nl in
      if hasEntry lines (nameserverEntry s) then (nil, configured, w)
      else
        let newLines := [nameserverEntry s] ++ lines in
        let newContent := strings.Join newLines nl in
        match tee resolvConfFile newContent w with
        | (false, w) => (failure "failed to write", s, w)
        | (true, w) => (nil, configured, w)
        end
  end.

Definition checkAndRestoreLinuxResolver (s : Server) (w : World) : World :=
  match ReadFile w resolvConfFile with
  | None => w
  | Some content =>
      let lines := strings.Split content nl in
      let found := hasEntry lines (nameserverEntry s) in
      if negb found then
        let newLines := [nameserverEntry s] ++ lines in
        let newContent := strings.Join newLines nl in
        snd (tee resolvConfFile newContent w)
      else w
  end.

(** One tick of [monitorResolverConfig] on Linux. *)
Definition monitorTickLinux (s : Server) (w : World) : World :=
  if negb (resolverConfigured s) then w
  else checkAndRestoreLinuxResolver s w.

End WithLib.

End server.


(* ================================================================== *)
(** ** A reference library for running the embedding *)

(** An engine for the fragment of Go's pattern syntax that the repository's
    configurations and tests use: literals, escaped punctuation, [.], the
    anchors, bracket classes with ranges, [\d] [\w] [\s], groups,
    alternation and the repetitions [*] [+] [?] (also in their lazy form).
    A pattern outside the fragment is reported as a compile error, so the
    engine is used on concrete patterns of the fragment only; the general
    theorems below hold for every [GoLib]. *)
Module re2.

Inductive regex :=
| Empty
| Begin
| End_
| AnyNotNL
| Lit (c : ascii)
| Class (negated : bool) (items : list (ascii * ascii))
| Cat (r1 r2 : regex)
| Alt (r1 r2 : regex)
| Star (r : regex)
| Plus (r : regex)
| Opt (r : regex).

Definition code (c : ascii) : N := N_of_ascii c.

Definition isAlnum (c : ascii) : bool :=
  ((48 <=? code c) && (code c <=? 57) || (65 <=? code c) && (code c <=? 90)
   || (97 <=? code c) && (code c <=? 122))%N.

Definition digitItems : list (ascii * ascii) := [("0", "9")]%char.
Definition wordItems : list (ascii * ascii) :=
  [("0", "9"); ("A", "Z"); ("a", "z"); ("_", "_")]%char.
Definition spaceItems : list (ascii * ascii) :=
  [(ascii_of_N 9, ascii_of_N 10); (ascii_of_N 12, ascii_of_N 13);
   (" ", " ")]%char.

(** What follows a backslash: a set of bytes, or nothing when the escape is
    outside the fragment. *)
Definition escape (e : ascii) : option (list (ascii * ascii)) :=
  if Ascii.eqb e "d" then Some digitItems
  else if Ascii.eqb e "w" then Some wordItems
  else if Ascii.eqb e "s" then Some spaceItems
  else if Ascii.eqb e "n" then Some [(ascii_of_N 10, ascii_of_N 10)]
  else if Ascii.eqb e "t" then Some [(ascii_of_N 9, ascii_of_N 9)]
  else if Ascii.eqb e "r" then Some [(ascii_of_N 13, ascii_of_N 13)]
  else if isAlnum e || negb (strings.isASCIIbyte e) then None
  else Some [(e, e)].

Definition isRepeat (c : ascii) : bool :=
  Ascii.eqb c "*" || Ascii.eqb c "+" || Ascii.eqb c "?".

(** One class member: a byte or an escape; returns its items, the single
    byte when it can start a range, and the rest. *)
Definition classChar (s : string)
  : option (list (ascii * ascii) * option ascii * string) :=
  match s with
  | String "\" (String e r) =>
      match escape e with
      | Some [(lo, hi)] =>
          if Ascii.eqb lo hi then Some ([(lo, hi)], Some lo, r)
          else Some ([(lo, hi)], None, r)
      | Some items => Some (items, None, r)
      | None => None
      end
  | String c r => Some ([(c, c)], Some c, r)
  | EmptyString => None
  end.

Fixpoint parseClassItems (fuel : nat) (first : bool)
  (acc : list (ascii * ascii)) (s : string)
  : option (list (ascii * ascii) * string) :=
  match fuel with
  | O => None
  | S fuel =>
      match s with
      | EmptyString => None
      | String "[" (String ":" _) => None
      | String c r =>
          if Ascii.eqb c "]" && negb first then Some (acc, r)
          else
            match classChar s with
            | None => None
            | Some (items, Some lo, String "-" (String h r2)) =>
                if Ascii.eqb h "]"
                then parseClassItems fuel false (acc ++ items)
                       (String "-" (String h r2))
                else
                  match classChar (String h r2) with
                  | Some (_, Some hi, r3) =>
                      if (code hi <? code lo)%N then None
                      else parseClassItems fuel false (acc ++ [(lo, hi)]) r3
                  | _ => None
                  end
            | Some (items, _, r1) =>
                parseClassItems fuel false (acc ++ items) r1
            end
      end
  end.

Definition parseClass (s : string) : option (regex * string) :=
  let '(negated, s) :=
    match s with
    | String "^" r => (true, r)
    | _ => (false, s)
    end in
  match parseClassItems (String.length s) true [] s with
  | Some (items, rest) => Some (Class negated items, rest)
  | None => None
  end.

(** A repetition operator after an atom, its optional lazy mark, and the
    refusal of a second operator. *)
Definition parsePostfix (a : regex) (s : string) : option (regex * string) :=
  match s with
  | String q r =>
      if isRepeat q then
        let a := if Ascii.eqb q "*" then Star a
                 else if Ascii.eqb q "+" then Plus a else Opt a in
        let r := match r with String "?" r' => r' | _ => r end in
        match r with
        | String q' _ => if isRepeat q' then None else Some (a, r)
        | EmptyString => Some (a, r)
        end
      else Some (a, s)
  | EmptyString => Some (a, s)
  end.

Fixpoint parseAlt (fuel : nat) (s : string) : option (regex * string) :=
  match fuel with
  | O => None
  | S fuel =>
      match parseCat fuel s with
      | Some (r, String "|" rest) =>
          match parseAlt fuel rest with
          | Some (r2, rest) => Some (Alt r r2, rest)
          | None => None
          end
      | other => other
      end
  end
with parseCat (fuel : nat) (s : string) : option (regex * string) :=
  match fuel with
  | O => None
  | S fuel =>
      match s with
      | EmptyString => Some (Empty, s)
      | String c _ =>
          if Ascii.eqb c "|" || Ascii.eqb c ")" then Some (Empty, s)
          else
            match parseAtom fuel s with
            | Some (a, rest) =>
                match parsePostfix a rest with
                | Some (a, rest) =>
                    match parseCat fuel rest with
                    | Some (tail, rest) => Some (Cat a tail, rest)
                    | None => None
                    end
                | None => None
                end
            | None => None
            end
      end
  end
with parseAtom (fuel : nat) (s : string) : option (regex * string) :=
  match fuel with
  | O => None
  | S fuel =>
      match s with
      | EmptyString => None
      | String "(" (String "?" _) => None
      | String "(" r =>
          match parseAlt fuel r with
          | Some (g, String ")" rest) => Some (g, rest)
          | _ => None
          end
      | String "[" r => parseClass r
      | String "." r => Some (AnyNotNL, r)
      | String "^" r => Some (Begin, r)
      | String "$" r => Some (End_, r)
      | String "\" (String e r) =>
          match escape e with
          | Some items => Some (Class false items, r)
          | None => None
          end
      | String c r =>
          if isRepeat c || Ascii.eqb c "{" || Ascii.eqb c "}"
             || Ascii.eqb c "\" || negb (strings.isASCIIbyte c)
          then None
          else Some (Lit c, r)
      end
  end.

Definition Compile (pattern : string) : option regex :=
  match parseAlt (3 * String.length pattern + 3) pattern with
  | Some (r, EmptyString) => Some r
  | _ => None
  end.

Definition inClass (items : list (ascii * ascii)) (c : ascii) : bool :=
  existsb (λ item, (code (fst item) <=? code c)%N
                   && (code c <=? code (snd item))%N) items.

(** Repetition of [step], each round consuming at least one byte. *)
Fixpoint starLoop (step : bool → string → (bool → string → bool) → bool)
  (n : nat) (atStart : bool) (s : string) (k : bool → string → bool) : bool :=
  k atStart s ||
  match n with
  | O => false
  | S n =>
      step atStart s
        (λ b s', (String.length s' <? String.length s)%nat
                 && starLoop step n b s' k)
  end.

(** [run r atStart s k]: some prefix of [s] matches [r] and the continuation
    [k] accepts what is left; [atStart] tells whether [s] is the whole
    text. *)
Fixpoint run (r : regex) (atStart : bool) (s : string)
  (k : bool → string → bool) : bool :=
  match r with
  | Empty => k atStart s
  | Begin => atStart && k atStart s
  | End_ => String.eqb s "" && k atStart s
  | AnyNotNL =>
      match s with
      | String c s' => negb (Ascii.eqb c (ascii_of_N 10)) && k false s'
      | EmptyString => false
      end
  | Lit c =>
      match s with
      | String d s' => Ascii.eqb c d && k false s'
      | EmptyString => false
      end
  | Class negated items =>
      match s with
      | String d s' => xorb negated (inClass items d) && k false s'
      | EmptyString => false
      end
  | Cat r1 r2 => run r1 atStart s (λ b s', run r2 b s' k)
  | Alt r1 r2 => run r1 atStart s k || run r2 atStart s k
  | Star r1 => starLoop (run r1) (String.length s) atStart s k
  | Plus r1 =>
      run r1 atStart s (λ b s', starLoop (run r1) (String.length s') b s' k)
  | Opt r1 => k atStart s || run r1 atStart s k
  end.

Fixpoint searchFrom (r : regex) (atStart : bool) (s : string) : bool :=
  run r atStart s (λ _ _, true) ||
  match s with
  | EmptyString => false
  | String _ s' => searchFrom r false s'
  end.

(** A match anywhere in [s]. *)
Definition MatchString (r : regex) (s : string) : bool :=
  searchFrom r true s.

End re2.

(** The reference library: the engine above, and the identity on the
    rune-wise paths of [strings], which no ASCII input reaches. *)
Definition refLib : GoLib := {|
  Regexp := re2.regex;
  regexp_Compile := re2.Compile;
  regexp_MatchString := re2.MatchString;
  unicode_ToLower := λ s, s;
  unicode_ToUpper := λ s, s;
  unicode_TrimSpace := λ s, s;
  unicode_TrimRightSpace := λ s, s;
|}.


(* ================================================================== *)
(** ** The specification's notions *)

(** These definitions follow the wording of the specification; the theorems
    below compare them with the embedding of the code. *)
Module Spec.
Import reghost.

Section WithLib.
Context {L : GoLib}.

(** "exact match (case-insensitive, FQDN-normalized)" *)
Definition exactMatch (q : string) (r : Record_) : bool :=
  String.eqb (fqdn (Domain r)) (fqdn q).

(** "regex match if the pattern is regex-shaped", with a pattern that does
    not compile never matching *)
Definition regexMatch (q : string) (r : Record_) : bool :=
  strings.HasPrefix (Domain r) "^" &&
  match regexp_Compile (Domain r) with
  | Some re => regexp_MatchString re (fqdn q)
  | None => false
  end.

(** "try exact match first, then regex match" *)
Definition recordMatches (q : string) (r : Record_) : bool :=
  exactMatch q r || regexMatch q r.

(** "First match wins": the answer given by the first matching record. *)
Definition firstMatch (rs : list Record_) (q : string) : string * bool :=
  match List.find (recordMatches q) rs with
  | Some r => (IP r, true)
  | None => (EmptyString, false)
  end.

End WithLib.

(** "an address answer (matched IP, fixed positive TTL)" to the question
    [q]. *)
Definition addressAnswer (q : miekg.Question) (ip : string) : miekg.A :=
  {| miekg.Hdr := {| miekg.HName := miekg.Name q;
                     miekg.Rrtype := miekg.TypeA;
                     miekg.Class := miekg.ClassINET;
                     miekg.Ttl := 300 |};
     miekg.Addr := miekg.ParseIP ip |}.

(** A candidate the allocation loop passes over: it is the reserved
    address, or the probe reports it in use, or the alias command fails. *)
Definition skipped (goos : server.GOOS) (a : server.Attempt) : Prop :=
  server.candidate a = "127.0.0.1"
  ∨ server.isIPInUse goos a (server.candidate a) = true
  ∨ server.addLoopbackAlias goos a (server.candidate a) ≠ os.nil.

(** The events a pass appended to the trace. *)
Definition eventsOf (before after : os.World) : list os.Event :=
  drop (length (os.trace before)) (os.trace after).

End Spec.


(* ================================================================== *)
(** ** Concrete inputs *)

(** Records, queries and environments on which the embedding is run. *)
Module Samples.
Import reghost miekg os server.

Definition sampleRecords : list Record_ :=
  [ {| Domain := "^[a-z]+\.test\.$"; IP := "10.0.0.1" |};
    {| Domain := "api.test"; IP := "10.0.0.2" |} ].

Definition dottedRecords : list Record_ :=
  [ {| Domain := "myhost."; IP := "10.0.0.1" |} ].

Definition addressQuery : Msg :=
  {| Id := 7; Response := false; Rcode := 0;
     Questions := [ {| Name := "API.test."; Qtype := TypeA;
                       Qclass := ClassINET |} ];
     Answer := [] |}.

Definition quadQuery : Msg :=
  {| Id := 8; Response := false; Rcode := 0;
     Questions := [ {| Name := "api.test."; Qtype := TypeAAAA;
                       Qclass := ClassINET |} ];
     Answer := [] |}.

(** Three draws: the reserved address, an address the interface listing
    shows, and a free one. *)
Definition sampleEnv (i : nat) : Attempt :=
  match i with
  | O => {| octets := (Init.Byte.x00, Init.Byte.x00, Init.Byte.x01);
            probeOutput := Some "inet 127.0.0.1/8 scope host lo";
            aliasAdded := true |}
  | S O => {| octets := (Init.Byte.x00, Init.Byte.x00, Init.Byte.x02);
              probeOutput := Some "inet 127.0.0.2/8 scope host lo";
              aliasAdded := true |}
  | _ => {| octets := (Init.Byte.x07, Init.Byte.x2a, Init.Byte.x09);
            probeOutput := Some "inet 127.0.0.1/8 scope host lo";
            aliasAdded := true |}
  end.

Definition linuxServer : Server :=
  {| bindIP := "127.7.42.9"; resolverConfigured := true;
     originalResolvConf := None |}.

Definition worldWith (fs : gmap string string) : World :=
  {| files := fs; dirs := {["/etc/resolver"]}; readonly := ∅; trace := [] |}.

(** The shared file without the managed line. *)
Definition plainResolvConf : World :=
  worldWith {[ resolvConfFile :=
                 "nameserver 8.8.8.8" +:+ server.nl +:+ "search lan"
                 +:+ server.nl ]}.

(** The shared file with the managed line in second place. *)
Definition displacedResolvConf : World :=
  worldWith {[ resolvConfFile :=
                 "nameserver 8.8.8.8" +:+ server.nl
                 +:+ "nameserver 127.7.42.9" +:+ server.nl ]}.

End Samples.


(** Managers, worlds and records for the resolver manager. *)
Module ManagerSamples.
Import reghost os resolver.

Definition sampleManager (d : gmap string bool) : Manager :=
  {| bindIP := "127.7.42.9"; managedDomains := d;
     resolverFilesDir := macOSResolverDir |}.

Definition sampleHint : string := expectedContent (sampleManager ∅).

(** [a] and [b] are managed and right on disk; the new records give the
    suffixes [b] and [c]. *)
Definition managerAB : Manager :=
  sampleManager {["a" := true; "b" := true]}.

Definition worldAB : World :=
  Samples.worldWith {["/etc/resolver/a" := sampleHint;
                      "/etc/resolver/b" := sampleHint]}.

Definition recordsBC : list Record_ :=
  [ {| Domain := "b"; IP := "10.0.0.1" |};
    {| Domain := "c"; IP := "10.0.0.2" |} ].

(** [com] is managed but its hint file is gone. *)
Definition managerCom : Manager := sampleManager {["com" := true]}.

Definition recordsCom : list Record_ :=
  [ {| Domain := "api.example.com"; IP := "10.0.0.1" |} ].

(** [old] is managed and on disk; the new configuration is one catch-all
    pattern, which has no suffix. *)
Definition managerOld : Manager := sampleManager {["old" := true]}.

Definition worldOld : World :=
  Samples.worldWith {["/etc/resolver/old" := sampleHint]}.

Definition recordsCatchAll : list Record_ :=
  [ {| Domain := "^.*$"; IP := "10.0.0.1" |} ].

(** The suffix [myhost/], from a domain written with a trailing slash, is
    managed; its hint file is the one of [myhost]. *)
Definition managerSlash : Manager := sampleManager {["myhost/" := true]}.

Definition worldSlash : World :=
  Samples.worldWith {["/etc/resolver/myhost" := sampleHint]}.

Definition recordsMyhost : list Record_ :=
  [ {| Domain := "myhost"; IP := "10.0.0.1" |} ].

(** The manager as [NewManager] returns it, and the configuration whose
    only domain is written with a trailing slash. *)
Definition freshManager : Manager := NewManager "127.7.42.9".

Definition recordsMyhostSlash : list Record_ :=
  [ {| Domain := "myhost/"; IP := "10.0.0.1" |} ].

End ManagerSamples.

(* ================================================================== *)
(** ** Invariants of the reconciliation loops *)

Module Inv.
Import os resolver.

(** The hint of [suffix] is on disk with the expected content. *)
Definition hintOk (m : Manager) (w : World) (suffix : string) : bool :=
  bool_decide (ReadFile w (hintPath m suffix) = Some (expectedContent m)).

(** A modifying command on [path] succeeds. *)
Definition writable (w : World) (path : string) : bool :=
  bool_decide (path ∉ readonly w).

(** [createResolverFile] returns no error: the hint is already right, or it
    can be written. *)
Definition ensured (m : Manager) (w : World) (suffix : string) : bool :=
  hintOk m w suffix || writable w (hintPath m suffix).

(** The world after a successful [tee]. *)
Definition written (path content : string) (w : World) : World :=
  emit (EvWrite path content)
    {| files := <[path := content]> (files w); dirs := dirs w;
       readonly := readonly w; trace := trace w |}.

(** The world after a successful [rm -f]. *)
Definition removed (path : string) (w : World) : World :=
  emit (EvRemove path)
    {| files := delete path (files w); dirs := dirs w;
       readonly := readonly w; trace := trace w |}.

(** What holds of the state of the first loop of [UpdateResolverFiles]
    after the suffixes [l], started in the world [w] with an empty map and
    the flag down. *)
Record CreateInv (m : Manager) (w : World) (l : list string)
  (st : CreateState) : Prop := {
  ci_readonly : readonly (world st) = readonly w;
  ci_dirs : dirs (world st) = dirs w;
  ci_written : ∀ s, s ∈ l → writable w (hintPath m s) = true →
    files (world st) !! hintPath m s = Some (expectedContent m);
  ci_kept : ∀ p, writable w p = false ∨ p ∉ hintPath m <$> l →
    files (world st) !! p = files w !! p;
  ci_new : ∀ k v, newDomains st !! k = Some v ↔
    v = true ∧ k ∈ l ∧ ensured m w k = true;
  ci_trace : ∃ evs, trace (world st) = trace w ++ evs
                    ∧ Forall (λ e, isWrite e = true) evs;
  ci_changed : changesMade st = true ↔
    ∃ s, s ∈ l ∧ ensured m w s = true ∧ index (managedDomains m) s = false;
}.

(** What holds of the state of the second loop after the keys [l], started
    with the flag [ch0], the manager [m] and the world [w]; [nd] is the map
    built by the first loop. *)
Record RemoveInv (nd : gmap string bool) (m : Manager) (w : World)
  (ch0 : bool) (l : list string) (r : bool * Manager * World) : Prop := {
  ri_readonly : readonly r.2 = readonly w;
  ri_dirs : dirs r.2 = dirs w;
  ri_dir : resolverFilesDir r.1.2 = resolverFilesDir m;
  ri_ip : bindIP r.1.2 = bindIP m;
  ri_removed : ∀ d, d ∈ l → index nd d = false →
    writable w (hintPath m d) = true → files r.2 !! hintPath m d = None;
  ri_kept : ∀ p,
    (∀ d, d ∈ l → index nd d = false → writable w p = true →
          hintPath m d ≠ p) →
    files r.2 !! p = files w !! p;
  ri_trace : ∃ evs, trace r.2 = trace w ++ evs
    ∧ Forall (λ e, isRemove e = true) evs
    ∧ (∀ d, d ∈ l → index nd d = false →
         writable w (hintPath m d) = true → EvRemove (hintPath m d) ∈ evs)
    ∧ (r.1.1 = true ↔ ch0 = true ∨ evs ≠ []);
}.

End Inv.

(* ================================================================== *)
(** ** Package [reghost]: configuration and its validation *)

Module types.
Import reghost.

(** The errors of [Validate]: the three package variables and the two
    error structs. *)
Inductive ConfigError :=
| ErrMissingActiveRecord
| ErrNoRecords
| ErrActiveRecordNotFound
| ErrEmptyRecordSet (Name : string)
| ErrInvalidRecord (RecordSet : string) (Index : nat) (Reason : string).

(** [Config]; a nil map and an empty map are both [∅]. *)
Record Config := {
  ActiveRecord : string;
  Records : gmap string (list Record_);
}.

(** The inner loop of [Validate] over the records of the set [name], from
    index [i]. *)
Fixpoint validateRecords (name : string) (i : nat) (records : list Record_)
  : option ConfigError :=
  match records with
  | [] => None
  | record :: rest =>
      if String.eqb (Domain record) ""
      then Some (ErrInvalidRecord name i "domain is empty")
      else if String.eqb (IP record) ""
      then Some (ErrInvalidRecord name i "ip is empty")
      else validateRecords name (S i) rest
  end.

(** The outer loop of [Validate] over the record sets, in the order the
    [range] visits them. *)
Fixpoint validateSets (sets : list (string * list Record_))
  : option ConfigError :=
  match sets with
  | [] => None
  | (name, records) :: rest =>
      if (length records =? 0)%nat then Some (ErrEmptyRecordSet name)
      else
        match validateRecords name 0 records with
        | Some e => Some e
        | None => validateSets rest
        end
  end.

(** [Validate]; [None] is a nil error.  The sets are visited in the order
    of [map_to_list]. *)
Definition Validate (c : Config) : option ConfigError :=
  if String.eqb (ActiveRecord c) "" then Some ErrMissingActiveRecord
  else if (size (Records c) =? 0)%nat then Some ErrNoRecords
  else
    match Records c !! ActiveRecord c with
    | None => Some ErrActiveRecordNotFound
    | Some _ => validateSets (map_to_list (Records c))
    end.

(** [GetActiveRecords]; the nil slice is the empty list. *)
Definition GetActiveRecords (c : Config) : list Record_ :=
  match Records c !! ActiveRecord c with
  | Some records => records
  | None => []
  end.

End types.

(* ================================================================== *)
(** ** Package [dns] (internal): restoring the shared resolver file *)

Module shutdown.
Import os server.

(** [cleanupLinuxResolver]; a nil backup is [None]. *)
Definition cleanupLinuxResolver (s : Server) (w : World) : error * World :=
  match originalResolvConf s with
  | None => (nil, w)
  | Some original =>
      match tee resolvConfFile original w with
      | (false, w) => (failure "failed to restore", w)
      | (true, w) => (nil, w)
      end
  end.

(** The first step of [Shutdown] on Linux: the resolver configuration is
    cleaned up only when it was configured; an error is logged and not
    returned. *)
Definition shutdownResolverLinux (s : Server) (w : World) : World :=
  if resolverConfigured s then snd (cleanupLinuxResolver s w) else w.

End shutdown.

(* ================================================================== *)
(** ** Package [utils]: the size accounting and the clean-up of the logger *)

Module logger.

(** [MaxLogSize], [MaxLogAge] (in nanoseconds) and [MaxLogBackups]. *)
Definition MaxLogSize : Z := 5 * 1024 * 1024.
Definition MaxLogAge : Z := 7 * 24 * 3600 * 1000000000.
Definition MaxLogBackups : Z := 7.

(** The fields of [Logger] that [Write] and [cleanOldLogs] compute with. *)
Record Logger := {
  size : Z;
  maxSize : Z;
  maxAge : Z;
  maxFiles : Z;
}.

(** Addition on [int64]. *)
Definition wrap64 (z : Z) : Z := (z + 2 ^ 63) mod 2 ^ 64 - 2 ^ 63.

(** What the file system answers during one [Write]: whether [rotate]
    succeeds (close, rename and reopen), the count [file.Write] returns, and
    whether it returns an error. *)
Record WriteIO := {
  rotateOk : bool;
  written : Z;
  writeFailed : bool;
}.

Definition setSize (l : Logger) (n : Z) : Logger :=
  {| size := n; maxSize := maxSize l; maxAge := maxAge l;
     maxFiles := maxFiles l |}.

(** [Write] for a message of [len] bytes: the returned count, whether an
    error is returned, and the logger. *)
Definition Write (l : Logger) (len : Z) (io : WriteIO) : Z * bool * Logger :=
  if wrap64 (size l + len) >? maxSize l then
    if rotateOk io then
      let l := setSize l 0 in
      (written io, writeFailed io, setSize l (wrap64 (size l + written io)))
    else (0, true, l)
  else (written io, writeFailed io, setSize l (wrap64 (size l + written io))).

(** [Time.Sub] on times in nanoseconds: the difference, kept within the
    range of [Duration]. *)
Definition Sub (t u : Z) : Z :=
  Z.max (- 2 ^ 63) (Z.min (2 ^ 63 - 1) (t - u)).

(** The first loop of [cleanOldLogs]: the matches that [os.Stat] finds,
    with their modification times. *)
Fixpoint statAll (stat : string → option Z) (matches : list string)
  : list (string * Z) :=
  match matches with
  | [] => []
  | m :: rest =>
      match stat m with
      | Some modTime => (m, modTime) :: statAll stat rest
      | None => statAll stat rest
      end
  end.

(** The second loop, from index [i] of the [n] log files: the paths given
    to [os.Remove]. *)
Fixpoint removeLoop (l : Logger) (now : Z) (n i : Z)
  (logs : list (string * Z)) : list string :=
  match logs with
  | [] => []
  | (path, modTime) :: rest =>
      if Sub now modTime >? maxAge l then path :: removeLoop l now n (i + 1) rest
      else if n - i >? maxFiles l then path :: removeLoop l now n (i + 1) rest
      else removeLoop l now n (i + 1) rest
  end.

(** [cleanOldLogs]: [glob] is the result of [filepath.Glob] ([None] for an
    error), [stat] the modification time [os.Stat] reports.  The result is
    the list of removed paths. *)
Definition cleanOldLogs (l : Logger) (glob : option (list string))
  (stat : string → option Z) (now : Z) : list string :=
  match glob with
  | None => []
  | Some matches =>
      let logs := statAll stat matches in
      removeLoop l now (Z.of_nat (length logs)) 0 logs
  end.

End logger.

(* ================================================================== *)
(** ** Notions used by the further properties *)

Module Props.
Import reghost miekg dns.

Section WithLib.
Context {L : GoLib}.

(** The answer the handler gives to one question, if any. *)
Definition answerOf (c : Cache) (q : Question) : option A :=
  if Qtype q =? TypeA then
    match Lookup c (strings.ToLower (Name q)) with
    | (ip, true) => Some (Spec.addressAnswer q ip)
    | (_, false) => None
    end
  else None.

(** An address question whose name matches no record. *)
Definition missed (c : Cache) (q : Question) : bool :=
  (Qtype q =? TypeA) && negb (snd (Lookup c (strings.ToLower (Name q)))).

End WithLib.

(** A record of a set is well-formed. *)
Definition wellFormed (r : Record_) : Prop := Domain r ≠ "" ∧ IP r ≠ "".

End Props.

(** More concrete inputs. *)
Module MoreSamples.
Import reghost os server types.

(** Every draw is the reserved address. *)
Definition reservedEnv (i : nat) : Attempt :=
  {| octets := (Init.Byte.x00, Init.Byte.x00, Init.Byte.x01);
     probeOutput := None; aliasAdded := true |}.

(** A literal domain whose dot would match any byte if it were a
    pattern. *)
Definition dotRecords : list Record_ :=
  [ {| Domain := "a.c"; IP := "10.0.0.3" |} ].

Definition validConfig : Config :=
  {| ActiveRecord := "default";
     Records := {[ "default" := [ {| Domain := "reghost.local";
                                     IP := "127.0.0.1" |} ] ]} |}.

(** The second record of the only set has no address. *)
Definition brokenConfig : Config :=
  {| ActiveRecord := "default";
     Records := {[ "default" := [ {| Domain := "reghost.local";
                                     IP := "127.0.0.1" |};
                                  {| Domain := "x.local"; IP := "" |} ] ]} |}.

End MoreSamples.

Module LogSamples.
Import logger.

Definition defaultLogger (n : Z) : Logger :=
  {| size := n; maxSize := MaxLogSize; maxAge := MaxLogAge;
     maxFiles := MaxLogBackups |}.

(** The log is 100 bytes short of its limit; the rotation works and the
    file takes the whole message. *)
Definition nearlyFull : Logger := defaultLogger (MaxLogSize - 100).

Definition fullWrite (n : Z) : WriteIO :=
  {| rotateOk := true; written := n; writeFailed := false |}.

End LogSamples.

Module LockedSamples.
Import reghost os resolver ManagerSamples.

(** As [worldAB], but nothing can be written on the hint path of [c]. *)
Definition worldLocked : World :=
  {| files := files worldAB; dirs := dirs worldAB;
     readonly := {["/etc/resolver/c"]}; trace := [] |}.

End LockedSamples.

(** Ordinary host names. *)
Module Names.

Fixpoint allBytes (p : ascii → bool) (s : string) : bool :=
  match s with
  | EmptyString => true
  | String c r => p c && allBytes p r
  end.

(** A letter, a digit or a hyphen. *)
Definition labelByte (c : ascii) : bool :=
  let n := strings.byteval c in
  (((48 <=? n) && (n <=? 57)) || ((65 <=? n) && (n <=? 90))
   || ((97 <=? n) && (n <=? 122)) || (n =? 45))%N.

Definition plainByte (c : ascii) : bool := labelByte c || Ascii.eqb c ".".

(** One label of a host name, and labels with dots between them. *)
Definition label (s : string) : bool := allBytes labelByte s.
Definition plainName (s : string) : bool := allBytes plainByte s.

End Names.

(* ================================================================== *)
(** ** Facts about package [strings] *)

Section StringFacts.
Context {L : GoLib}.
Import strings.

Lemma app_cons (c : ascii) (a b : string) :
  String c a +:+ b = String c (a +:+ b).
Proof. reflexivity. Qed.

Lemma app_nil_l (b : string) : "" +:+ b = b.
Proof. reflexivity. Qed.

Lemma app_empty_r (s : string) : s +:+ "" = s.
Proof.
  induction s as [|c s IH]; [done|].
  rewrite app_cons, IH. done.
Qed.

Lemma app_assoc_s (a b c : string) : (a +:+ b) +:+ c = a +:+ b +:+ c.
Proof.
  induction a as [|x a IH]; [done|].
  rewrite !app_cons, IH. done.
Qed.

Lemma isASCII_app (a b : string) :
  isASCII (a +:+ b) = isASCII a && isASCII b.
Proof.
  induction a as [|c a IH]; [done|].
  rewrite app_cons. simpl. rewrite IH, andb_assoc. done.
Qed.

Lemma mapBytes_app (f : ascii → ascii) (a b : string) :
  mapBytes f (a +:+ b) = mapBytes f a +:+ mapBytes f b.
Proof.
  induction a as [|c a IH]; [done|].
  rewrite app_cons. simpl. rewrite IH. done.
Qed.

Lemma ToLower_ascii (s : string) :
  isASCII s = true → ToLower s = mapBytes lowerByte s.
Proof. unfold ToLower. by intros ->. Qed.

Lemma ToUpper_ascii (s : string) :
  isASCII s = true → ToUpper s = mapBytes upperByte s.
Proof. unfold ToUpper. by intros ->. Qed.

Lemma upperByte_ascii (c : ascii) :
  isASCIIbyte c = true → isASCIIbyte (upperByte c) = true.
Proof. by destruct c as [[] [] [] [] [] [] [] []]. Qed.

Lemma lower_upper_byte (c : ascii) : lowerByte (upperByte c) = lowerByte c.
Proof. by destruct c as [[] [] [] [] [] [] [] []]. Qed.

Lemma isASCII_upper (s : string) :
  isASCII s = true → isASCII (mapBytes upperByte s) = true.
Proof.
  induction s as [|c s IH]; [done|].
  simpl. rewrite !andb_true_iff. intros [Hc Hs].
  split; [by apply upperByte_ascii | by apply IH].
Qed.

Lemma lower_upper (s : string) :
  mapBytes lowerByte (mapBytes upperByte s) = mapBytes lowerByte s.
Proof.
  induction s as [|c s IH]; [done|].
  simpl. rewrite IH, lower_upper_byte. done.
Qed.

(** Upper-casing an ASCII name first does not change its lower-case form. *)
Lemma ToLower_ToUpper (s : string) :
  isASCII s = true → ToLower (ToUpper s) = ToLower s.
Proof.
  intros Hs. rewrite (ToUpper_ascii _ Hs).
  rewrite (ToLower_ascii _ (isASCII_upper _ Hs)), (ToLower_ascii _ Hs).
  apply lower_upper.
Qed.

Lemma HasSuffix_cons (c : ascii) (s suffix : string) :
  HasSuffix (String c s) suffix
  = String.eqb (String c s) suffix || HasSuffix s suffix.
Proof. reflexivity. Qed.

Lemma HasSuffix_app_dot (s : string) : HasSuffix (s +:+ ".") "." = true.
Proof.
  induction s as [|c s IH]; [done|].
  rewrite app_cons, HasSuffix_cons, IH. apply orb_true_r.
Qed.

Lemma lowerByte_dot (c : ascii) :
  Ascii.eqb (lowerByte c) "." = Ascii.eqb c ".".
Proof. by destruct c as [[] [] [] [] [] [] [] []]. Qed.

Lemma eqb_lower_dot (s : string) :
  String.eqb (mapBytes lowerByte s) "." = String.eqb s ".".
Proof.
  destruct s as [|c [|d s]]; [done| |].
  - simpl. by rewrite lowerByte_dot.
  - simpl. rewrite lowerByte_dot. by destruct (Ascii.eqb c ".").
Qed.

Lemma HasSuffix_lower_dot (s : string) :
  HasSuffix (mapBytes lowerByte s) "." = HasSuffix s ".".
Proof.
  induction s as [|c s IH]; [done|].
  change (mapBytes lowerByte (String c s))
    with (String (lowerByte c) (mapBytes lowerByte s)).
  rewrite !HasSuffix_cons, IH.
  change (String (lowerByte c) (mapBytes lowerByte s))
    with (mapBytes lowerByte (String c s)).
  by rewrite eqb_lower_dot.
Qed.

End StringFacts.

(* ================================================================== *)
(** ** The matcher *)

Section MatcherFacts.
Context {L : GoLib}.
Import reghost Spec.

(** The cache after compiling the patterns of [rs] on top of [cache]: a key
    is bound to its compiled form when it is a pattern of [rs] that starts
    with the anchor and compiles, and is left as in [cache] otherwise. *)
Lemma lookup_compilePatterns (rs : list Record_) (cache : gmap string Regexp)
  (k : string) :
  foldl compilePattern cache rs !! k =
  match (if bool_decide (k ∈ Domain <$> rs) && strings.HasPrefix k "^"
         then regexp_Compile k else None) with
  | Some re => Some re
  | None => cache !! k
  end.
Proof.
  revert cache. induction rs as [|r rs IH]; intros cache.
  - rewrite fmap_nil, bool_decide_eq_false_2; [done|]. by intros ?%elem_of_nil.
  - cbn [foldl]. rewrite IH, fmap_cons. clear IH.
    destruct (decide (k = Domain r)) as [->|Hne].
    + rewrite (bool_decide_eq_true_2 (Domain r ∈ Domain r :: _));
        [|by left].
      unfold compilePattern.
      destruct (strings.HasPrefix (Domain r) "^") eqn:Hp;
        rewrite ?andb_true_r, ?andb_false_r; simpl.
      * destruct (regexp_Compile (Domain r)) as [re|] eqn:Hc;
          destruct (bool_decide _); simpl; try done.
        by rewrite lookup_insert_eq.
      * done.
    + assert (bool_decide (k ∈ Domain r :: (Domain <$> rs))
              = bool_decide (k ∈ Domain <$> rs)) as ->.
      { apply bool_decide_ext. rewrite elem_of_cons. tauto. }
      assert (compilePattern cache r !! k = cache !! k) as ->; [|done].
      unfold compilePattern.
      destruct (strings.HasPrefix (Domain r) "^"); [|done].
      destruct (regexp_Compile (Domain r)); [|done].
      by rewrite lookup_insert_ne.
Qed.

(** The cache of a freshly built matcher holds exactly the compiled
    anchored patterns of its records. *)
Lemma lookup_NewMatcher (rs : list Record_) (k : string) :
  regexCache (NewMatcher rs) !! k =
  if bool_decide (k ∈ Domain <$> rs) && strings.HasPrefix k "^"
  then regexp_Compile k else None.
Proof.
  unfold NewMatcher, compilePatterns. simpl.
  rewrite lookup_compilePatterns, lookup_empty.
  by destruct (if _ && _ then _ else _).
Qed.

Lemma matchesRecord_NewMatcher (rs : list Record_) (q : string)
  (r : Record_) :
  r ∈ rs →
  matchesRecord (regexCache (NewMatcher rs)) (fqdn q) r = recordMatches q r.
Proof.
  intros Hin. unfold matchesRecord, recordMatches, exactMatch, regexMatch.
  rewrite lookup_NewMatcher.
  rewrite bool_decide_eq_true_2; [|by apply list_elem_of_fmap_2].
  simpl.
  destruct (String.eqb _ _); [done|]. simpl.
  destruct (strings.HasPrefix _ _); [|done]. simpl.
  by destruct (regexp_Compile _).
Qed.

Lemma matchLoop_find (cache : gmap string Regexp) (d : string)
  (p : Record_ → bool) (rs : list Record_) :
  (∀ r, r ∈ rs → matchesRecord cache d r = p r) →
  matchLoop cache d rs =
  match List.find p rs with
  | Some r => (IP r, true)
  | None => (EmptyString, false)
  end.
Proof.
  induction rs as [|r rs IH]; intros Hp; [done|].
  simpl. rewrite (Hp r); [|by left].
  destruct (p r); [done|].
  apply IH. intros x Hx. apply Hp. by right.
Qed.

Lemma matchLoop_found (cache : gmap string Regexp) (d ip : string)
  (rs : list Record_) :
  matchLoop cache d rs = (ip, true) →
  ∃ r, r ∈ rs ∧ IP r = ip ∧ matchesRecord cache d r = true.
Proof.
  induction rs as [|r rs IH]; [done|].
  simpl. destruct (matchesRecord cache d r) eqn:Hm.
  - intros [= <-]. exists r. split; [by left|done].
  - intros [x (? & ? & ?)]%IH. exists x. split; [by right|done].
Qed.

Lemma Match_NewMatcher (rs : list Record_) (q : string) :
  Match (NewMatcher rs) q = firstMatch rs q.
Proof.
  unfold Match, firstMatch.
  apply matchLoop_find. intros r Hr.
  by apply matchesRecord_NewMatcher.
Qed.

Lemma find_some_true {A} (p : A → bool) (l : list A) (x : A) :
  x ∈ l → p x = true → is_Some (List.find p l).
Proof.
  induction l as [|y l IH]; [by intros ?%elem_of_nil|].
  intros [->|Hin]%elem_of_cons Hp; simpl.
  - rewrite Hp. eauto.
  - destruct (p y); eauto.
Qed.

Lemma find_app_first {A} (p : A → bool) (before : list A) (x : A)
  (after : list A) :
  Forall (λ y, p y = false) before → p x = true →
  List.find p (before ++ x :: after) = Some x.
Proof.
  intros Hb Hx. induction Hb as [|y before Hy _ IH]; simpl.
  - by rewrite Hx.
  - by rewrite Hy.
Qed.

(** C6: for every record list and query name, [Match] gives the address of
    the first record, in declaration order, that matches the normalised
    query exactly or, failing that, through its compiled pattern, and the
    not-found pair when there is none; so when two records both match and
    no record declared before the earlier one does, the address of the
    earlier one is returned. *)
Theorem C6_first_match_wins (rs : list Record_) (q : string) :
  Match (NewMatcher rs) q =
    match List.find (λ r, exactMatch q r || regexMatch q r) rs with
    | Some r => (IP r, true)
    | None => (EmptyString, false)
    end
  ∧ ∀ before r1 between r2 after,
      rs = before ++ r1 :: between ++ r2 :: after →
      Forall (λ r, recordMatches q r = false) before →
      recordMatches q r1 = true → recordMatches q r2 = true →
      Match (NewMatcher rs) q = (IP r1, true).
Proof.
  split; [apply Match_NewMatcher|].
  intros before r1 between r2 after -> Hbefore H1 _.
  rewrite Match_NewMatcher. unfold firstMatch.
  by rewrite (find_app_first _ before r1 _ Hbefore H1).
Qed.

(** C10: an address [Match] returns is the address of a record of the
    matcher's current list; after [Update] with new records it is the
    address of a new record that matches the query exactly or through its
    own pattern, compiled from the new list, whatever the matcher held
    before. *)
Theorem C10_no_stale_data (m : Matcher) (rs : list Record_)
  (q ip : string) :
  (Match m q = (ip, true) → ∃ r, r ∈ records m ∧ IP r = ip)
  ∧ (Match (Update m rs) q = (ip, true) →
     ∃ r, r ∈ rs ∧ IP r = ip ∧ recordMatches q r = true)
  ∧ records (Update m rs) = rs
  ∧ ∀ k re, regexCache (Update m rs) !! k = Some re →
      k ∈ Domain <$> rs ∧ regexp_Compile k = Some re.
Proof.
  split; [|split; [|split]].
  - unfold Match. intros (r & ? & ? & _)%matchLoop_found. eauto.
  - change (Update m rs) with (NewMatcher rs).
    unfold Match. intros (r & Hin & Hip & Hm)%matchLoop_found.
    exists r. split; [done|]. split; [done|].
    by rewrite <- (matchesRecord_NewMatcher rs q r Hin).
  - done.
  - intros k re. change (Update m rs) with (NewMatcher rs).
    rewrite lookup_NewMatcher.
    destruct (bool_decide (k ∈ Domain <$> rs)) eqn:Hk; simpl; [|done].
    apply bool_decide_eq_true_1 in Hk.
    destruct (strings.HasPrefix k "^"); [|done]. done.
Qed.

Lemma fqdn_upper (D : string) :
  strings.isASCII D = true → fqdn (strings.ToUpper D) = fqdn D.
Proof. intros H. unfold fqdn. by rewrite ToLower_ToUpper. Qed.

Lemma fqdn_dot (D : string) :
  strings.isASCII D = true → strings.HasSuffix D "." = false →
  fqdn (D +:+ ".") = fqdn D.
Proof.
  intros HD Hs. unfold fqdn.
  rewrite (ToLower_ascii (D +:+ ".")) by (by rewrite isASCII_app, HD).
  rewrite (ToLower_ascii D HD), mapBytes_app.
  change (strings.mapBytes strings.lowerByte ".") with ".".
  by rewrite HasSuffix_app_dot, HasSuffix_lower_dot, Hs.
Qed.

Lemma eqb_refl_s (s : string) : String.eqb s s = true.
Proof. apply String.eqb_refl. Qed.

(** C5 (as amended): for every record list and every ASCII domain [D] that
    appears in it, [Resolve(D)] finds a record, [Resolve(uppercase(D))]
    returns the same pair, and so does [Resolve(D+".")] when [D] does not
    already end with a dot. *)
Theorem C5_resolve_normalises (rs : list Record_) (D : string) :
  D ∈ Domain <$> rs →
  strings.isASCII D = true →
  let r := NewResolver rs in
  snd (Resolve r D) = true
  ∧ Resolve r (strings.ToUpper D) = Resolve r D
  ∧ (strings.HasSuffix D "." = false → Resolve r (D +:+ ".") = Resolve r D).
Proof.
  intros Hin HD r. unfold r, Resolve, NewResolver. simpl.
  split; [|split].
  - rewrite Match_NewMatcher. unfold firstMatch.
    apply list_elem_of_fmap in Hin as (x & -> & Hx).
    destruct (find_some_true (recordMatches (Domain x)) rs x Hx) as [y ->];
      [|done].
    unfold recordMatches, exactMatch. by rewrite eqb_refl_s.
  - unfold Match. by rewrite fqdn_upper.
  - intros Hs. unfold Match. by rewrite fqdn_dot.
Qed.

End MatcherFacts.

(** *** The matcher on concrete records *)

Section MatcherExamples.
Import reghost Spec Samples.
#[local] Existing Instance refLib.

(** A literal and a pattern both match [api.test]; the pattern is declared
    first and wins. *)
Lemma C6_witness :
  recordMatches "api.test" {| Domain := "^[a-z]+\.test\.$"; IP := "10.0.0.1" |}
    = true
  ∧ recordMatches "api.test" {| Domain := "api.test"; IP := "10.0.0.2" |}
    = true
  ∧ Match (NewMatcher sampleRecords) "api.test" = ("10.0.0.1", true).
Proof.
  split; [vm_compute; reflexivity|].
  split; [vm_compute; reflexivity|].
  apply (proj2 (C6_first_match_wins sampleRecords "api.test") []
           {| Domain := "^[a-z]+\.test\.$"; IP := "10.0.0.1" |} []
           {| Domain := "api.test"; IP := "10.0.0.2" |} []);
    [reflexivity | constructor
     | vm_compute; reflexivity | vm_compute; reflexivity].
Defined.

Lemma C10_witness :
  let m := NewMatcher dottedRecords in
  Match (Update m sampleRecords) "api.test" = ("10.0.0.1", true)
  ∧ ∃ r, r ∈ sampleRecords ∧ IP r = "10.0.0.1"
         ∧ recordMatches "api.test" r = true.
Proof.
  intros m. split; [vm_compute; reflexivity|].
  apply (proj1 (proj2 (C10_no_stale_data m sampleRecords
                         "api.test" "10.0.0.1"))).
  vm_compute; reflexivity.
Defined.

Lemma C5_witness :
  "api.test" ∈ Domain <$> sampleRecords
  ∧ strings.isASCII "api.test" = true
  ∧ Resolve (NewResolver sampleRecords) (strings.ToUpper "api.test")
    = Resolve (NewResolver sampleRecords) "api.test".
Proof.
  assert ("api.test" ∈ Domain <$> sampleRecords) as Hin
    by (right; left).
  split; [exact Hin|]. split; [reflexivity|].
  exact (proj1 (proj2 (C5_resolve_normalises sampleRecords "api.test"
                         Hin eq_refl))).
Defined.

(** C5 as stated fails for a literal domain written with its trailing dot:
    [Resolve(D)] finds the record, [Resolve(D+".")] asks for a name with
    two dots and finds nothing. *)
Lemma C5_counterexample :
  "myhost." ∈ Domain <$> dottedRecords
  ∧ strings.HasPrefix "myhost." "^" = false
  ∧ Resolve (NewResolver dottedRecords) "myhost." = ("10.0.0.1", true)
  ∧ Resolve (NewResolver dottedRecords) ("myhost." +:+ ".") = ("", false).
Proof.
  split; [left|]. split; [reflexivity|].
  split; vm_compute; reflexivity.
Qed.

End MatcherExamples.

(* ================================================================== *)
(** ** The query handler *)

Section HandlerFacts.
Context {L : GoLib}.
Import reghost miekg dns Spec.

(** C1 (as amended): for a request with one question: an address query
    whose name matches gets code [RcodeSuccess] and one address answer with
    the matched address and TTL 300; an address query whose name matches
    nothing gets [RcodeNameError] and no answer; a query of any other type
    is skipped and gets [RcodeSuccess] with no answer. *)
Theorem C1_handler_reply (c : Cache) (r : Msg) (q : Question) :
  Questions r = [q] →
  let reply := ServeDNS c r in
  (Qtype q = TypeA →
     ∀ ip, Lookup c (strings.ToLower (Name q)) = (ip, true) →
     Rcode reply = RcodeSuccess ∧ Answer reply = [addressAnswer q ip])
  ∧ (Qtype q = TypeA →
     snd (Lookup c (strings.ToLower (Name q))) = false →
     Rcode reply = RcodeNameError ∧ Answer reply = [])
  ∧ (Qtype q ≠ TypeA →
     Rcode reply = RcodeSuccess ∧ Answer reply = []).
Proof.
  intros Hq reply. unfold reply, ServeDNS. rewrite Hq. cbn [foldl].
  unfold serveQuestion.
  split; [|split].
  - intros -> ip ->. done.
  - intros ->. cbn [Z.eqb Pos.eqb TypeA negb].
    destruct (Lookup c _) as [ip []]; [done|]. done.
  - intros Hne. apply Z.eqb_neq in Hne as ->. done.
Qed.

End HandlerFacts.

Section HandlerExamples.
Import reghost miekg dns Spec Samples.
#[local] Existing Instance refLib.

Lemma C1_witness :
  let q := {| Name := "API.test."; Qtype := TypeA; Qclass := ClassINET |} in
  let reply := ServeDNS (NewCache sampleRecords) addressQuery in
  Rcode reply = RcodeSuccess ∧ Answer reply = [addressAnswer q "10.0.0.1"].
Proof.
  intros q reply.
  apply (proj1 (C1_handler_reply (NewCache sampleRecords) addressQuery q
                 eq_refl) eq_refl "10.0.0.1").
  vm_compute; reflexivity.
Defined.

(** C1 as stated fails for a query that is not of address type: the
    question is skipped and the reply keeps [RcodeSuccess]; it is not a
    name error. *)
Lemma C1_counterexample :
  let q := {| Name := "api.test."; Qtype := TypeAAAA; Qclass := ClassINET |} in
  let reply := ServeDNS (NewCache sampleRecords) quadQuery in
  Questions quadQuery = [q]
  ∧ Qtype q ≠ TypeA
  ∧ Rcode reply = RcodeSuccess
  ∧ Rcode reply ≠ RcodeNameError
  ∧ Answer reply = [].
Proof. vm_compute. repeat split; discriminate. Qed.

End HandlerExamples.

(* ================================================================== *)
(** ** Suffix extraction *)

Section SuffixFacts.
Context {L : GoLib}.
Import resolver.

(** C7: [extractSuffix] maps the wildcard pattern of [myhost] to [myhost],
    and [api.example.com] to its top label [com]. *)
Theorem C7_extractSuffix_examples :
  extractSuffix "^[a-zA-Z0-9-]+\.myhost\.$" = "myhost"
  ∧ extractSuffix "api.example.com" = "com".
Proof. split; vm_compute; reflexivity. Qed.

End SuffixFacts.

(* ================================================================== *)
(** ** Allocation of the loopback address *)

Section AllocatorFacts.
Import os server Spec.

Lemma bindLoop_success (goos : GOOS) (env : nat → Attempt) (n i : nat)
  (ip : string) :
  bindLoop goos env i n = (ip, nil) →
  ∃ j, (i ≤ j < i + n)%nat
       ∧ ip = candidate (env j)
       ∧ String.eqb ip "127.0.0.1" = false
       ∧ isIPInUse goos (env j) ip = false
       ∧ addLoopbackAlias goos (env j) ip = nil
       ∧ ∀ k, (i ≤ k < j)%nat → skipped goos (env k).
Proof.
  revert i. induction n as [|n IH]; intros i; [done|].
  cbn [bindLoop].
  destruct (String.eqb (candidate (env i)) "127.0.0.1") eqn:Hres.
  { intros (j & Hj & Hrest)%IH. exists j. split; [lia|].
    destruct Hrest as (? & ? & ? & ? & Hsk). repeat (split; [done|]).
    intros k Hk. destruct (decide (k = i)) as [->|]; [|apply Hsk; lia].
    left. by apply String.eqb_eq. }
  destruct (isIPInUse goos (env i) (candidate (env i))) eqn:Huse.
  { intros (j & Hj & Hrest)%IH. exists j. split; [lia|].
    destruct Hrest as (? & ? & ? & ? & Hsk). repeat (split; [done|]).
    intros k Hk. destruct (decide (k = i)) as [->|]; [|apply Hsk; lia].
    right; left. done. }
  destruct (addLoopbackAlias goos (env i) (candidate (env i))) eqn:Hadd.
  - intros [= <-]. exists i. split; [lia|]. repeat (split; [done|]).
    intros k Hk. lia.
  - intros (j & Hj & Hrest)%IH. exists j. split; [lia|].
    destruct Hrest as (? & ? & ? & ? & Hsk). repeat (split; [done|]).
    intros k Hk. destruct (decide (k = i)) as [->|]; [|apply Hsk; lia].
    right; right. by rewrite Hadd.
Qed.

Lemma bindLoopbackIP_unfold (goos : GOOS) (env : nat → Attempt) :
  bindLoopbackIP goos env = bindLoop goos env 0 maxAttempts.
Proof. reflexivity. Qed.

(** C9: an address the allocation loop returns without error is not
    [127.0.0.1], is the candidate of one of the at most 100 iterations, was
    not reported in use by that iteration's probe, and every earlier
    candidate was passed over for being reserved, in use, or refused by the
    alias command. *)
Theorem C9_allocated_address (goos : GOOS) (env : nat → Attempt)
  (ip : string) :
  bindLoopbackIP goos env = (ip, nil) →
  ip ≠ "127.0.0.1"
  ∧ ∃ j, (j < 100)%nat
         ∧ ip = candidate (env j)
         ∧ isIPInUse goos (env j) ip = false
         ∧ ∀ k, (k < j)%nat → skipped goos (env k).
Proof.
  intros H. rewrite bindLoopbackIP_unfold in H.
  destruct (bindLoop_success goos env maxAttempts 0 ip H)
    as (j & Hj & Hip & Hres & Huse & _ & Hsk).
  split; [apply String.eqb_neq; exact Hres|].
  exists j.
  split; [exact (proj2 Hj)|]. split; [exact Hip|]. split; [exact Huse|].
  intros k Hk. apply Hsk. lia.
Qed.

Lemma C9_witness :
  bindLoopbackIP linux Samples.sampleEnv = ("127.7.42.9", nil)
  ∧ "127.7.42.9" ≠ "127.0.0.1"
  ∧ ∃ j, (j < 100)%nat
         ∧ "127.7.42.9" = candidate (Samples.sampleEnv j)
         ∧ isIPInUse linux (Samples.sampleEnv j) "127.7.42.9" = false
         ∧ ∀ k, (k < j)%nat → skipped linux (Samples.sampleEnv k).
Proof.
  split; [vm_compute; reflexivity|].
  apply (C9_allocated_address linux Samples.sampleEnv "127.7.42.9").
  vm_compute; reflexivity.
Defined.

End AllocatorFacts.

(* ================================================================== *)
(** ** The shared resolver file *)

Section SplitJoinFacts.
Import strings.

Lemma rev_app_append (a b r : string) :
  String.rev_app a b +:+ r = String.rev_app a (b +:+ r).
Proof.
  revert b. induction a as [|c a IH]; intros b; [done|].
  cbn [String.rev_app]. by rewrite IH.
Qed.

Lemma rev_cons_append (c : ascii) (cur r : string) :
  String.rev (String c cur) +:+ r = String.rev cur +:+ String c r.
Proof.
  unfold String.rev. cbn [String.rev_app].
  by rewrite !rev_app_append.
Qed.

Lemma prefix_single (c a : ascii) (r : string) :
  String.prefix (String c "") (String a r) = Ascii.eqb c a.
Proof.
  cbn. destruct (ascii_dec c a) as [->|Hne].
  - rewrite Ascii.eqb_refl. by destruct r.
  - symmetry. by apply Ascii.eqb_neq.
Qed.

Lemma splitFrom_cons (sep : string) (cur : string) (a : ascii) (r : string) :
  splitFrom sep cur 0 (String a r) =
  if String.prefix sep (String a r)
  then String.rev cur :: splitFrom sep "" (String.length sep - 1) r
  else splitFrom sep (String a cur) 0 r.
Proof. reflexivity. Qed.

Lemma splitFrom_not_nil (sep cur : string) (k : nat) (s : string) :
  splitFrom sep cur k s ≠ [].
Proof.
  revert cur k. induction s as [|a r IH]; intros cur k; [done|].
  destruct k as [|k]; [|apply IH].
  rewrite splitFrom_cons. destruct (String.prefix _ _); [done|apply IH].
Qed.

Lemma Join_cons (x : string) (l : list string) (sep : string) :
  l ≠ [] → Join (x :: l) sep = x +:+ sep +:+ Join l sep.
Proof. by destruct l. Qed.

(** Joining the pieces of a split gives the text back. *)
Lemma Join_splitFrom (c : ascii) (cur s : string) :
  Join (splitFrom (String c "") cur 0 s) (String c "")
  = String.rev cur +:+ s.
Proof.
  revert cur. induction s as [|a r IH]; intros cur.
  - cbn [splitFrom Join]. by rewrite app_empty_r.
  - rewrite splitFrom_cons, prefix_single.
    destruct (Ascii.eqb c a) eqn:Hca.
    + apply Ascii.eqb_eq in Hca as ->.
      rewrite Join_cons by apply splitFrom_not_nil.
      cbn [String.length Nat.sub]. rewrite IH. done.
    + rewrite IH. apply rev_cons_append.
Qed.

Lemma Join_Split (c : ascii) (x s : string) :
  Join (x :: Split s (String c "")) (String c "")
  = x +:+ String c "" +:+ s.
Proof.
  unfold Split. rewrite Join_cons by apply splitFrom_not_nil.
  by rewrite Join_splitFrom.
Qed.

Lemma Contains_cons (a : ascii) (r sub : string) :
  Contains (String a r) sub
  = String.prefix sub (String a r) || Contains r sub.
Proof. reflexivity. Qed.

(** A text without the separator, followed by the separator, is the first
    piece of the split. *)
Lemma splitFrom_first (c : ascii) (x cur s : string) :
  Contains x (String c "") = false →
  splitFrom (String c "") cur 0 (x +:+ String c "" +:+ s)
  = (String.rev cur +:+ x) :: splitFrom (String c "") "" 0 s.
Proof.
  revert cur. induction x as [|a r IH]; intros cur Hx.
  - rewrite app_nil_l, app_cons, splitFrom_cons, prefix_single.
    rewrite Ascii.eqb_refl, app_empty_r. done.
  - rewrite Contains_cons, prefix_single in Hx.
    apply orb_false_elim in Hx as [Ha Hr].
    rewrite app_cons, splitFrom_cons, prefix_single, Ha.
    rewrite IH by done. by rewrite rev_cons_append.
Qed.

Lemma Split_first (c : ascii) (x s : string) :
  Contains x (String c "") = false →
  Split (x +:+ String c "" +:+ s) (String c "")
  = x :: Split s (String c "").
Proof. intros Hx. unfold Split. by rewrite splitFrom_first. Qed.

End SplitJoinFacts.

Section SharedFileFacts.
Context {L : GoLib}.
Import os server.

Lemma restore_eq_configure (s : Server) (w : World) :
  checkAndRestoreLinuxResolver s w = (configureLinuxResolver s w).2.
Proof.
  unfold checkAndRestoreLinuxResolver, configureLinuxResolver.
  destruct (ReadFile w resolvConfFile) as [content|]; [|done].
  cbn [bindIP]. unfold nameserverEntry at 1 3. cbn [bindIP].
  fold (nameserverEntry s).
  destruct (hasEntry _ _); [done|]. cbn [negb].
  by destruct (tee _ _ w) as [[] ?].
Qed.

(** C2 (as amended): a configuration pass and a repair pass treat the
    shared file alike.  When the file cannot be read, or some line of it is
    the managed line once trimmed, wherever that line stands, or the write
    command fails, the world is left as it was.  Otherwise the file becomes
    the managed line, a newline and the old content verbatim, every other
    file is untouched, and the managed line is the first line. *)
Theorem C2_shared_file (s : Server) (w : World) :
  let entry := nameserverEntry s in
  let afterConfigure := (configureLinuxResolver s w).2 in
  let afterRepair := checkAndRestoreLinuxResolver s w in
  afterRepair = afterConfigure
  ∧ match ReadFile w resolvConfFile with
    | None => afterConfigure = w
    | Some content =>
        if hasEntry (strings.Split content nl) entry then afterConfigure = w
        else if bool_decide (resolvConfFile ∈ readonly w)
        then afterConfigure = w
        else
          ReadFile afterConfigure resolvConfFile
            = Some (entry +:+ nl +:+ content)
          ∧ (∀ p, p ≠ resolvConfFile →
               ReadFile afterConfigure p = ReadFile w p)
          ∧ (strings.Contains entry nl = false →
               strings.Split (entry +:+ nl +:+ content) nl
               = entry :: strings.Split content nl)
    end.
Proof.
  intros entry afterConfigure afterRepair.
  split; [apply restore_eq_configure|].
  unfold afterConfigure, configureLinuxResolver.
  destruct (ReadFile w resolvConfFile) as [content|]; [|done].
  cbn [bindIP]. unfold nameserverEntry at 1 3. cbn [bindIP].
  fold (nameserverEntry s). fold entry.
  destruct (hasEntry _ _); [done|].
  unfold tee. destruct (bool_decide (resolvConfFile ∈ readonly w)); [done|].
  cbn [snd]. unfold ReadFile, emit. cbn [files app].
  split; [|split].
  - rewrite lookup_insert_eq. f_equal. apply Join_Split.
  - intros p Hp. by rewrite lookup_insert_ne.
  - apply Split_first.
Qed.

End SharedFileFacts.

Section SharedFileExamples.
Import os server Samples.
#[local] Existing Instance refLib.

Lemma C2_witness :
  let entry := "nameserver 127.7.42.9" in
  let old := "nameserver 8.8.8.8" +:+ nl +:+ "search lan" +:+ nl in
  strings.Contains entry nl = false
  ∧ ReadFile (checkAndRestoreLinuxResolver linuxServer plainResolvConf)
      resolvConfFile = Some (entry +:+ nl +:+ old)
  ∧ strings.Split (entry +:+ nl +:+ old) nl = entry :: strings.Split old nl.
Proof.
  intros entry old.
  destruct (C2_shared_file linuxServer plainResolvConf) as [Heq Hcfg].
  split; [reflexivity|].
  rewrite Heq.
  assert (ReadFile plainResolvConf resolvConfFile = Some old) as Hread
    by (vm_compute; reflexivity).
  rewrite Hread in Hcfg.
  assert (hasEntry (strings.Split old nl) (nameserverEntry linuxServer)
          = false) as Hno by (vm_compute; reflexivity).
  rewrite Hno in Hcfg.
  match type of Hcfg with
  | if ?b then _ else _ => destruct b eqn:Hrw
  end; [vm_compute in Hrw; discriminate Hrw|].
  destruct Hcfg as (Hfile & _ & Hfirst).
  split; [exact Hfile|]. apply Hfirst. reflexivity.
Defined.

(** C2 as stated fails when the managed line is present but not first:
    both passes find it and leave the file alone, with another nameserver
    still in first place. *)
Lemma C2_counterexample :
  let entry := nameserverEntry linuxServer in
  let content := "nameserver 8.8.8.8" +:+ nl
                 +:+ "nameserver 127.7.42.9" +:+ nl in
  let afterConfigure := (configureLinuxResolver linuxServer
                           displacedResolvConf).2 in
  let afterRepair := checkAndRestoreLinuxResolver linuxServer
                       displacedResolvConf in
  ReadFile displacedResolvConf resolvConfFile = Some content
  ∧ hasEntry (strings.Split content nl) entry = true
  ∧ ReadFile afterConfigure resolvConfFile = Some content
  ∧ ReadFile afterRepair resolvConfFile = Some content
  ∧ head (strings.Split content nl) = Some "nameserver 8.8.8.8"
  ∧ head (strings.Split content nl) ≠ Some entry.
Proof. vm_compute. repeat split; discriminate. Qed.

End SharedFileExamples.

(* ================================================================== *)
(** ** The resolver manager *)

Section ManagerFacts.
Context {L : GoLib}.
Import reghost os resolver Spec Inv ManagerSamples.

Lemma createResolverFile_eq (m : Manager) (s : string) (w : World) :
  createResolverFile m s w =
  if hintOk m w s then (nil, w)
  else if writable w (hintPath m s)
       then (nil, written (hintPath m s) (expectedContent m) w)
       else (failure "failed to write resolver file", w).
Proof.
  unfold createResolverFile, hintOk, writable, written, tee.
  destruct (ReadFile w (hintPath m s)) as [c|] eqn:Hr.
  - destruct (String.eqb_spec c (expectedContent m)) as [->|Hne].
    + by rewrite bool_decide_eq_true_2.
    + repeat case_bool_decide; simplify_eq; done.
  - repeat case_bool_decide; simplify_eq; done.
Qed.

Lemma createStep_eq (m : Manager) (st : CreateState) (s : string) :
  createStep m st s =
  if ensured m (world st) s then
    {| newDomains := <[s := true]> (newDomains st);
       changesMade := if negb (index (managedDomains m) s) then true
                      else changesMade st;
       world := if hintOk m (world st) s then world st
                else written (hintPath m s) (expectedContent m) (world st) |}
  else st.
Proof.
  unfold createStep, ensured. rewrite createResolverFile_eq.
  destruct (hintOk m (world st) s); [done|].
  destruct (writable _ _); [done|]. by destruct st.
Qed.

Lemma removeStep_eq (nd : gmap string bool) (ch : bool) (m : Manager)
  (w : World) (d : string) :
  removeStep nd (ch, m, w) d =
  if negb (index nd d) && writable w (hintPath m d)
  then (true, setManaged m (delete d (managedDomains m)),
        removed (hintPath m d) w)
  else (ch, m, w).
Proof.
  unfold removeStep, removeResolverFile, rm_f, writable, removed.
  destruct (index nd d); [done|]. cbn [negb andb].
  repeat case_bool_decide; simplify_eq; done.
Qed.

Lemma ensured_now (m : Manager) (w : World) (l : list string)
  (st : CreateState) (s : string) :
  CreateInv m w l st → ensured m (world st) s = ensured m w s.
Proof.
  intros HI. unfold ensured, writable. rewrite (ci_readonly _ _ _ _ HI).
  destruct (bool_decide (hintPath m s ∉ readonly w)) eqn:Hw.
  - by rewrite !orb_true_r.
  - rewrite !orb_false_r. unfold hintOk, ReadFile.
    rewrite (ci_kept _ _ _ _ HI); [done|]. by left.
Qed.

Lemma createLoop_inv (m : Manager) (w : World) (l : list string) :
  CreateInv m w l
    (foldl (createStep m)
       {| newDomains := ∅; changesMade := false; world := w |} l).
Proof.
  induction l as [|x l IH] using rev_ind.
  - split; cbn; try done.
    + by intros s ?%elem_of_nil.
    + intros k v. rewrite lookup_empty. split; [done|].
      by intros (_ & ?%elem_of_nil & _).
    + exists []. by rewrite app_nil_r.
    + split; [done|]. by intros (s & ?%elem_of_nil & _).
  - rewrite foldl_app. cbn [foldl].
    set (st := foldl _ _ l) in *.
    rewrite createStep_eq, (ensured_now m w l st x IH).
    destruct (ensured m w x) eqn:Hens.
    + (* the hint of [x] is ensured *)
      assert (hintOk m (world st) x = false →
              writable w (hintPath m x) = true) as Hwr.
      { intros Hno. pose proof (ensured_now m w l st x IH) as He.
        rewrite Hens in He. unfold ensured in He. rewrite Hno in He.
        unfold writable in *. by rewrite (ci_readonly _ _ _ _ IH) in He. }
      split; cbn [world newDomains changesMade].
      * destruct (hintOk _ _ _); [|cbn]; apply (ci_readonly _ _ _ _ IH).
      * destruct (hintOk _ _ _); [|cbn]; apply (ci_dirs _ _ _ _ IH).
      * intros s [Hs| ->%list_elem_of_singleton]%elem_of_app Hw.
        -- destruct (hintOk m (world st) x); [by apply (ci_written _ _ _ _ IH)|].
           cbn. destruct (decide (hintPath m x = hintPath m s)) as [->|Hne].
           ++ by rewrite lookup_insert_eq.
           ++ rewrite lookup_insert_ne by done. by apply (ci_written _ _ _ _ IH).
        -- destruct (hintOk m (world st) x) eqn:Hok.
           ++ unfold hintOk, ReadFile in Hok. by apply bool_decide_eq_true_1 in Hok.
           ++ cbn. by rewrite lookup_insert_eq.
      * intros p Hp.
        assert (writable w p = false ∨ p ∉ hintPath m <$> l) as Hp'.
        { destruct Hp as [?|Hp]; [by left|right].
          rewrite fmap_app in Hp. set_solver. }
        destruct (hintOk m (world st) x) eqn:Hok;
          [by apply (ci_kept _ _ _ _ IH)|].
        cbn. rewrite lookup_insert_ne; [by apply (ci_kept _ _ _ _ IH)|].
        intros <-. specialize (Hwr eq_refl).
        destruct Hp as [Hp|Hp]; [congruence|].
        rewrite fmap_app in Hp. set_solver.
      * intros k v. destruct (decide (k = x)) as [->|Hne].
        -- rewrite lookup_insert_eq. split.
           ++ intros [= <-]. split; [done|]. split; [set_solver|done].
           ++ by intros (-> & _).
        -- rewrite lookup_insert_ne by done.
           rewrite (ci_new _ _ _ _ IH). set_solver.
      * destruct (ci_trace _ _ _ _ IH) as (evs & Hevs & Hall).
        destruct (hintOk m (world st) x); [by exists evs|].
        exists (evs ++ [EvWrite (hintPath m x) (expectedContent m)]).
        cbn. rewrite Hevs, app_assoc. split; [done|].
        apply Forall_app. split; [done|]. by apply Forall_singleton.
      * destruct (index (managedDomains m) x) eqn:Hidx; cbn [negb].
        -- rewrite (ci_changed _ _ _ _ IH). split.
           ++ intros (s & ? & ? & ?). exists s. set_solver.
           ++ intros (s & [Hs| ->%list_elem_of_singleton]%elem_of_app & ? & ?);
                [by exists s|congruence].
        -- split; [|done]. intros _. exists x. set_solver.
    + (* the hint of [x] cannot be written *)
      assert (writable w (hintPath m x) = false) as Hnw.
      { unfold ensured in Hens. by apply orb_false_elim in Hens as [_ ?]. }
      split.
      * apply (ci_readonly _ _ _ _ IH).
      * apply (ci_dirs _ _ _ _ IH).
      * intros s [Hs| ->%list_elem_of_singleton]%elem_of_app Hw;
          [by apply (ci_written _ _ _ _ IH)|congruence].
      * intros p Hp. apply (ci_kept _ _ _ _ IH).
        destruct Hp as [?|Hp]; [by left|right].
        rewrite fmap_app in Hp. set_solver.
      * intros k v. rewrite (ci_new _ _ _ _ IH). split.
        -- intros (? & ? & ?). set_solver.
        -- intros (? & [Hs| ->%list_elem_of_singleton]%elem_of_app & ?);
             [done|congruence].
      * apply (ci_trace _ _ _ _ IH).
      * rewrite (ci_changed _ _ _ _ IH). split.
        -- intros (s & ? & ? & ?). exists s. set_solver.
        -- intros (s & [Hs| ->%list_elem_of_singleton]%elem_of_app & ? & ?);
             [by exists s|congruence].
Qed.

Lemma hintPath_dir (m m' : Manager) (d : string) :
  resolverFilesDir m' = resolverFilesDir m → hintPath m' d = hintPath m d.
Proof. unfold hintPath. by intros ->. Qed.

Lemma removeLoop_inv (nd : gmap string bool) (m : Manager) (w : World)
  (ch0 : bool) (l : list string) :
  RemoveInv nd m w ch0 l (foldl (removeStep nd) (ch0, m, w) l).
Proof.
  induction l as [|x l IH] using rev_ind.
  - split; cbn; try done.
    + by intros d ?%elem_of_nil.
    + exists []. rewrite app_nil_r. split; [done|]. split; [done|].
      split; [by intros d ?%elem_of_nil|]. naive_solver.
  - rewrite foldl_app. cbn [foldl].
    destruct (foldl (removeStep nd) (ch0, m, w) l) as [[ch m'] w'] eqn:Hr.
    destruct IH as [Hro Hdirs Hdir Hip Hrem Hkept Htr]. cbn [fst snd] in *.
    rewrite removeStep_eq, (hintPath_dir m m' x Hdir).
    assert (writable w' (hintPath m x) = writable w (hintPath m x)) as ->.
    { unfold writable. by rewrite Hro. }
    destruct Htr as (evs & Hevs & Hall & Hin & Hch).
    destruct (negb (index nd x) && writable w (hintPath m x)) eqn:Hc.
    + apply andb_true_iff in Hc as [Hx Hw]. apply negb_true_iff in Hx.
      split; cbn; try done.
      * intros d [Hd| ->%list_elem_of_singleton]%elem_of_app Hi Hwd.
        -- destruct (decide (hintPath m x = hintPath m d)) as [->|Hne].
           ++ by rewrite lookup_delete_eq.
           ++ rewrite lookup_delete_ne by done. by apply Hrem.
        -- by rewrite lookup_delete_eq.
      * intros p Hp.
        assert (hintPath m x ≠ p) as Hne.
        { destruct (writable w p) eqn:Hwp; [apply Hp; set_solver|].
          intros <-. congruence. }
        rewrite lookup_delete_ne by done. apply Hkept.
        intros d Hd. apply Hp. set_solver.
      * exists (evs ++ [EvRemove (hintPath m x)]).
        rewrite Hevs, app_assoc. split; [done|].
        split; [apply Forall_app; split; [done|by apply Forall_singleton]|].
        split.
        -- intros d [Hd| ->%list_elem_of_singleton]%elem_of_app Hi Hwd;
             [|set_solver].
           apply elem_of_app. left. by apply Hin.
        -- split; [|done]. intros _. right. by destruct evs.
    + assert (∀ d, d ∈ l ++ [x] → index nd d = false →
                   writable w (hintPath m d) = true → d ∈ l) as Hinl.
      { intros d [Hd| ->%list_elem_of_singleton]%elem_of_app Hi Hwd; [done|].
        rewrite Hi, Hwd in Hc. done. }
      split; cbn; try done.
      * intros d Hd Hi Hwd. apply Hrem; [|done..]. by apply Hinl.
      * intros p Hp. apply Hkept. intros d Hd. apply Hp. set_solver.
      * exists evs. split; [done|]. split; [done|]. split; [|done].
        intros d Hd Hi Hwd. apply Hin; [|done..]. by apply Hinl.
Qed.

Lemma ensureResolverDir_ok (m : Manager) (w w1 : World) :
  ensureResolverDir m w = (nil, w1) →
  readonly w1 = readonly w ∧ files w1 = files w
  ∧ dirExists w1 (resolverFilesDir m) = true
  ∧ dirs w ⊆ dirs w1
  ∧ ∃ evs, trace w1 = trace w ++ evs
           ∧ Forall (λ e, isFlush e = false ∧ isRemove e = false) evs.
Proof.
  unfold ensureResolverDir, mkdir_p, dirExists.
  destruct (bool_decide (resolverFilesDir m ∈ dirs w)) eqn:Hd; cbn [negb].
  - intros [= <-]. repeat (split; [done|]).
    exists []. by rewrite app_nil_r.
  - destruct (bool_decide (resolverFilesDir m ∈ readonly w)); [done|].
    intros [= <-]. cbn. repeat (split; [done|]).
    split; [apply bool_decide_eq_true_2; set_solver|].
    split; [set_solver|].
    eexists [_]. split; [done|]. by apply Forall_singleton.
Qed.

Lemma ensureResolverDir_fail (m : Manager) (w w1 : World) (e : string) :
  ensureResolverDir m w = (failure e, w1) →
  w1 = w ∧ dirExists w (resolverFilesDir m) = false
  ∧ resolverFilesDir m ∈ readonly w.
Proof.
  unfold ensureResolverDir, mkdir_p.
  destruct (dirExists w (resolverFilesDir m)); [done|]. cbn [negb].
  case_bool_decide; [|done]. by intros [= <-].
Qed.

Lemma Update_no_suffix (m : Manager) (rs : list Record_) (w : World) :
  extractDomainSuffixes rs = [] → UpdateResolverFiles m rs w = (nil, m, w).
Proof. unfold UpdateResolverFiles. by intros ->. Qed.

Lemma Update_no_dir (m : Manager) (rs : list Record_) (w w1 : World)
  (e : string) :
  extractDomainSuffixes rs ≠ [] →
  ensureResolverDir m w = (failure e, w1) →
  UpdateResolverFiles m rs w
  = (failure "failed to ensure resolver directory", m, w).
Proof.
  intros Hs He. unfold UpdateResolverFiles.
  destruct (extractDomainSuffixes rs); [done|]. cbn [length Nat.eqb].
  rewrite He. by apply ensureResolverDir_fail in He as (-> & _).
Qed.

(** The pass when there are suffixes and the directory is there: the two
    loops, the assignment of the new map and the flush. *)
Lemma Update_main (m : Manager) (rs : list Record_) (w w1 : World) :
  extractDomainSuffixes rs ≠ [] →
  ensureResolverDir m w = (nil, w1) →
  let st := foldl (createStep m)
              {| newDomains := ∅; changesMade := false; world := w1 |}
              (extractDomainSuffixes rs) in
  let r := foldl (removeStep (newDomains st)) (changesMade st, m, world st)
             (rangeKeys (managedDomains m)) in
  UpdateResolverFiles m rs w
  = (nil, setManaged r.1.2 (newDomains st),
     if r.1.1 then flushDNSCache r.2 else r.2).
Proof.
  intros Hs He st r. unfold UpdateResolverFiles.
  destruct (extractDomainSuffixes rs) as [|s0 l] eqn:Hl; [done|].
  cbn [length Nat.eqb]. rewrite He.
  fold st. fold r. destruct r as [[ch m'] w']. by destruct ch.
Qed.

Lemma ensured_ext (m : Manager) (w w1 : World) (s : string) :
  readonly w1 = readonly w → files w1 = files w →
  ensured m w1 s = ensured m w s.
Proof.
  intros Hr Hf. unfold ensured, hintOk, writable, ReadFile.
  by rewrite Hr, Hf.
Qed.

Lemma index_true (nd : gmap string bool) (k : string) :
  index nd k = true ↔ nd !! k = Some true.
Proof.
  unfold index. destruct (nd !! k) as [[]|]; cbn; naive_solver.
Qed.

Lemma rangeKeys_dom (m : gmap string bool) (k : string) :
  k ∈ rangeKeys m ↔ k ∈ dom m.
Proof.
  unfold rangeKeys. rewrite elem_of_dom. split.
  - intros ([k' v] & -> & Hin%elem_of_map_to_list)%list_elem_of_fmap. eauto.
  - intros [v Hv]. apply list_elem_of_fmap. exists (k, v).
    split; [done|]. by apply elem_of_map_to_list.
Qed.

Lemma count_app (p : Event → bool) (a b : list Event) :
  count p (a ++ b) = (count p a + count p b)%nat.
Proof. unfold count. by rewrite filter_app, length_app. Qed.

Lemma count_none (p : Event → bool) (l : list Event) :
  Forall (λ e, p e = false) l → count p l = 0%nat.
Proof.
  unfold count. induction 1 as [|e l He _ IH]; [done|].
  rewrite filter_cons_False by congruence. done.
Qed.

Lemma count_all (p : Event → bool) (l : list Event) :
  Forall (λ e, p e = true) l → count p l = length l.
Proof.
  unfold count. induction 1 as [|e l He _ IH]; [done|].
  rewrite filter_cons_True by done. cbn. by rewrite IH.
Qed.

Lemma eventsOf_app (w w' : World) (evs : list Event) :
  trace w' = trace w ++ evs → eventsOf w w' = evs.
Proof. unfold eventsOf. intros ->. by rewrite drop_app_length. Qed.

(** The trace of a pass that reaches the loops: set-up and writes, then
    removals, then at most one flush, raised exactly by a newly managed
    suffix or a removal. *)
Lemma pass_shape (m : Manager) (rs : list Record_) (w w1 : World) :
  extractDomainSuffixes rs ≠ [] →
  ensureResolverDir m w = (nil, w1) →
  let r := UpdateResolverFiles m rs w in
  ∃ pre rem (f : bool),
    eventsOf w r.2 = pre ++ rem ++ (if f then [EvFlush] else [])
    ∧ Forall (λ e, isFlush e = false ∧ isRemove e = false) pre
    ∧ Forall (λ e, isRemove e = true) rem
    ∧ (∀ d, d ∈ dom (managedDomains m) →
         index (managedDomains r.1.2) d = false →
         writable w (hintPath m d) = true → EvRemove (hintPath m d) ∈ rem)
    ∧ (f = true ↔
         (∃ s, index (managedDomains r.1.2) s = true
               ∧ index (managedDomains m) s = false)
         ∨ rem ≠ []).
Proof.
  intros Hs He r. unfold r. rewrite (Update_main m rs w w1 Hs He).
  cbn zeta. set (l := extractDomainSuffixes rs).
  pose proof (createLoop_inv m w1 l) as HC.
  set (st := foldl (createStep m) _ l) in *.
  pose proof (removeLoop_inv (newDomains st) m (world st) (changesMade st)
                (rangeKeys (managedDomains m))) as HR.
  destruct (foldl (removeStep (newDomains st)) _ _) as [[ch m'] w'].
  destruct HR as [Hro _ _ _ _ _ (rem & Hrem & Hallr & Hin & Hch)].
  cbn [fst snd] in *.
  destruct (ensureResolverDir_ok m w w1 He)
    as (Hro1 & Hf1 & _ & _ & evs0 & Hevs0 & Hall0).
  destruct (ci_trace _ _ _ _ HC) as (evs1 & Hevs1 & Hall1).
  exists (evs0 ++ evs1), rem, ch.
  split; [|split; [|split; [|split]]].
  - apply eventsOf_app. destruct ch; cbn; rewrite Hrem, Hevs1, Hevs0;
      by rewrite <- !app_assoc, ?app_nil_r.
  - apply Forall_app. split; [done|].
    eapply Forall_impl; [exact Hall1|]. by intros [].
  - done.
  - intros d Hd Hi Hw. apply Hin.
    + by apply rangeKeys_dom.
    + by destruct ch.
    + unfold writable in *. by rewrite (ci_readonly _ _ _ _ HC), Hro1.
  - rewrite Hch, (ci_changed _ _ _ _ HC).
    assert (∀ s, index (newDomains st) s = true
                 ↔ s ∈ l ∧ ensured m w1 s = true) as Hidx.
    { intros s. rewrite index_true, (ci_new _ _ _ _ HC). naive_solver. }
    split.
    + intros [(s & Hs1 & Hs2 & Hs3)|?]; [left|by right].
      exists s. split; [by apply Hidx|done].
    + intros [(s & Hs1 & Hs2)|?]; [left|by right].
      apply Hidx in Hs1 as [? ?]. by exists s.
Qed.

Lemma eventsOf_same (w : World) : eventsOf w w = [].
Proof. unfold eventsOf. apply drop_all. Qed.

Lemma counts_of_shape (pre rem : list Event) (f : bool) :
  Forall (λ e, isFlush e = false ∧ isRemove e = false) pre →
  Forall (λ e, isRemove e = true) rem →
  let evs := pre ++ rem ++ (if f then [EvFlush] else []) in
  count isFlush evs = (if f then 1 else 0)%nat
  ∧ count isRemove evs = length rem
  ∧ (f = true → last evs = Some EvFlush).
Proof.
  intros Hpre Hrem evs. unfold evs. rewrite !count_app.
  rewrite (count_none isFlush pre), (count_none isRemove pre),
    (count_none isFlush rem), (count_all isRemove rem); try done.
  - assert (count isFlush (if f then [EvFlush] else [])
            = (if f then 1 else 0)%nat) as -> by (by destruct f).
    assert (count isRemove (if f then [EvFlush] else []) = 0%nat) as ->
      by (by destruct f).
    split; [done|]. split; [lia|].
    intros ->. by rewrite !app_assoc, last_snoc.
  - eapply Forall_impl; [exact Hrem|]. by intros [].
  - eapply Forall_impl; [exact Hpre|]. by intros ? [].
  - eapply Forall_impl; [exact Hpre|]. by intros ? [].
Qed.

(** C3 (as amended): in every pass the cache is flushed at most once, and
    then as the last action of the pass; it is flushed exactly when the pass
    brought a suffix into the managed set or a removal command succeeded.
    Writing the hint of a suffix that was already managed raises no flush,
    and a newly managed suffix raises one even when nothing was written. *)
Theorem C3_flush_once (m : Manager) (rs : list Record_) (w : World) :
  let r := UpdateResolverFiles m rs w in
  let evs := eventsOf w r.2 in
  (count isFlush evs ≤ 1)%nat
  ∧ (count isFlush evs = 1%nat ↔
       (∃ s, index (managedDomains r.1.2) s = true
             ∧ index (managedDomains m) s = false)
       ∨ (0 < count isRemove evs)%nat)
  ∧ (count isFlush evs = 1%nat → last evs = Some EvFlush).
Proof.
  intros r evs.
  assert (r.2 = w → r.1.2 = m →
          (count isFlush evs ≤ 1)%nat
          ∧ (count isFlush evs = 1%nat ↔
               (∃ s, index (managedDomains r.1.2) s = true
                     ∧ index (managedDomains m) s = false)
               ∨ (0 < count isRemove evs)%nat)
          ∧ (count isFlush evs = 1%nat → last evs = Some EvFlush)) as Hidle.
  { intros Hw Hm. unfold evs. rewrite Hw, Hm, eventsOf_same. cbn.
    split; [lia|]. split; [|done]. split; [done|].
    intros [(s & H1 & H2)|?]; [congruence|lia]. }
  destruct (decide (extractDomainSuffixes rs = [])) as [Hs|Hs].
  { apply Hidle; unfold r; by rewrite (Update_no_suffix m rs w Hs). }
  destruct (ensureResolverDir m w) as [[|e] w1] eqn:He.
  2:{ apply Hidle; unfold r; by rewrite (Update_no_dir m rs w w1 e Hs He). }
  clear Hidle.
  destruct (pass_shape m rs w w1 Hs He)
    as (pre & rem & f & Hevs & Hpre & Hrem & _ & Hf).
  fold r in Hevs, Hf. fold evs in Hevs.
  destruct (counts_of_shape pre rem f Hpre Hrem) as (Hc1 & Hc2 & Hc3).
  rewrite <- Hevs in Hc1, Hc2, Hc3. rewrite Hc1, Hc2.
  split; [destruct f; lia|]. split.
  - split.
    + intros H1. assert (f = true) as Ht by (destruct f; [done|lia]).
      apply Hf in Ht as [?|Hne]; [by left|right].
      destruct rem; [done|cbn; lia].
    + intros H. assert (f = true) as ->; [|done].
      apply Hf. destruct H as [?|Hl]; [by left|right].
      intros ->. cbn in Hl. lia.
  - intros H1. apply Hc3. by destruct f.
Qed.

(** The managed map and the files after a pass that reaches the loops. *)
Lemma pass_state (m : Manager) (rs : list Record_) (w w1 : World) :
  extractDomainSuffixes rs ≠ [] →
  ensureResolverDir m w = (nil, w1) →
  let r := UpdateResolverFiles m rs w in
  r.1.1 = nil
  ∧ (∀ k v, managedDomains r.1.2 !! k = Some v ↔
       v = true ∧ k ∈ extractDomainSuffixes rs ∧ ensured m w k = true)
  ∧ bindIP r.1.2 = bindIP m
  ∧ resolverFilesDir r.1.2 = resolverFilesDir m
  ∧ readonly r.2 = readonly w
  ∧ dirExists r.2 (resolverFilesDir m) = true
  ∧ (∀ d, d ∈ dom (managedDomains m) →
       index (managedDomains r.1.2) d = false →
       writable w (hintPath m d) = true →
       files r.2 !! hintPath m d = None)
  ∧ (∀ p, writable w p = false → files r.2 !! p = files w !! p)
  ∧ (∀ s, s ∈ extractDomainSuffixes rs →
       writable w (hintPath m s) = true →
       (∀ d, d ∈ dom (managedDomains m) →
          index (managedDomains r.1.2) d = false →
          hintPath m d ≠ hintPath m s) →
       files r.2 !! hintPath m s = Some (expectedContent m)).
Proof.
  intros Hs He r. unfold r. rewrite (Update_main m rs w w1 Hs He).
  cbn zeta. set (l := extractDomainSuffixes rs).
  pose proof (createLoop_inv m w1 l) as HC.
  set (st := foldl (createStep m) _ l) in *.
  pose proof (removeLoop_inv (newDomains st) m (world st) (changesMade st)
                (rangeKeys (managedDomains m))) as HR.
  destruct (foldl (removeStep (newDomains st)) _ _) as [[ch m'] w'].
  destruct HR as [Hro Hdirs Hdir Hip Hrem Hkept _].
  destruct HC as [Hro2 Hdirs2 Hwritten Hkept2 Hnew _ _].
  cbn [fst snd] in *.
  destruct (ensureResolverDir_ok m w w1 He)
    as (Hro1 & Hf1 & Hdir1 & _ & _).
  assert (∀ p, writable (world st) p = writable w p) as Hwr.
  { intros p. unfold writable. by rewrite Hro2, Hro1. }
  assert (∀ p, writable w1 p = writable w p) as Hwr1.
  { intros p. unfold writable. by rewrite Hro1. }
  assert (files (if ch then flushDNSCache w' else w') = files w') as Hfl
    by (by destruct ch).
  rewrite Hfl.
  split; [done|]. split; [|split; [|split; [|split; [|split]]]].
  - intros k v. rewrite Hnew. by rewrite (ensured_ext m w w1 k Hro1 Hf1).
  - done.
  - done.
  - destruct ch; cbn; by rewrite Hro, Hro2, Hro1.
  - unfold dirExists in *. destruct ch; cbn; by rewrite Hdirs, Hdirs2.
  - split; [|split].
    + intros d Hd Hi Hw. apply Hrem; [by apply rangeKeys_dom|done|].
      by rewrite Hwr.
    + intros p Hp. rewrite Hkept.
      * rewrite Hkept2; [by rewrite Hf1|]. left. by rewrite Hwr1.
      * intros d _ _ Hw. rewrite Hwr in Hw. congruence.
    + intros s0 Hs0 Hw Hno. rewrite Hkept.
      * apply Hwritten; [done|]. by rewrite Hwr1.
      * intros d Hd Hi _. apply Hno; [|done]. by apply rangeKeys_dom.
Qed.

(** C4 (as amended): in a pass whose records yield at least one suffix
    and that finds or creates the resolver directory, every previously
    managed suffix outside the new suffix set leaves the managed set, and
    its hint file is removed when the removal command succeeds on its path.
    In particular, with [a] and [b] managed and correct on disk and the new
    suffixes [b] and [c], the pass writes the hint of [c], removes that of
    [a], flushes once and does nothing to the hint of [b]. *)
Theorem C4_stale_suffix_removed (m : Manager) (rs : list Record_)
  (w : World) (d : string) :
  (extractDomainSuffixes rs ≠ [] →
   (ensureResolverDir m w).1 = nil →
   d ∈ dom (managedDomains m) →
   d ∉ extractDomainSuffixes rs →
   let r := UpdateResolverFiles m rs w in
   (d ∉ dom (managedDomains r.1.2))
   ∧ (hintPath m d ∉ readonly w →
      ReadFile r.2 (hintPath m d) = None
      ∧ EvRemove (hintPath m d) ∈ eventsOf w r.2))
  ∧ (let r := UpdateResolverFiles managerAB recordsBC worldAB in
     eventsOf worldAB r.2
     = [EvWrite "/etc/resolver/c" sampleHint; EvRemove "/etc/resolver/a";
        EvFlush]
     ∧ managedDomains r.1.2 = {["b" := true; "c" := true]}
     ∧ files r.2 = {["/etc/resolver/b" := sampleHint;
                     "/etc/resolver/c" := sampleHint]}).
Proof.
  split; [|vm_compute; done].
  intros Hs He Hd Hnot r.
  destruct (ensureResolverDir m w) as [e w1] eqn:Hens. cbn in He. subst e.
  destruct (pass_state m rs w w1 Hs Hens)
    as (_ & Hnew & _ & _ & _ & _ & Hrem & _).
  destruct (pass_shape m rs w w1 Hs Hens)
    as (pre & rem & f & Hevs & _ & _ & Hin & _).
  fold r in Hnew, Hrem, Hevs, Hin.
  assert (managedDomains r.1.2 !! d = None) as Hnone.
  { destruct (managedDomains r.1.2 !! d) as [v|] eqn:Hv; [|done].
    apply Hnew in Hv as (_ & ? & _). done. }
  split; [by apply not_elem_of_dom|].
  intros Hw.
  assert (index (managedDomains r.1.2) d = false) as Hi
    by (unfold index; by rewrite Hnone).
  assert (writable w (hintPath m d) = true) as Hwr
    by (by apply bool_decide_eq_true_2).
  split; [by apply Hrem|].
  rewrite Hevs. apply elem_of_app. right. apply elem_of_app. left.
  by apply Hin.
Qed.

Lemma createLoop_settled (m : Manager) (w : World) (l : list string)
  (st : CreateState) :
  world st = w →
  (∀ s, s ∈ l → hintOk m w s = true ∨ writable w (hintPath m s) = false) →
  world (foldl (createStep m) st l) = w.
Proof.
  revert st. induction l as [|x l IH]; intros st Hw Hall; [done|].
  cbn [foldl]. apply IH; [|intros s Hs; apply Hall; by right].
  rewrite createStep_eq. unfold ensured. rewrite Hw.
  destruct (Hall x) as [->| ->]; [by left|done|].
  rewrite orb_false_r. by destruct (hintOk m w x).
Qed.

Lemma removeLoop_idle (nd : gmap string bool) (l : list string)
  (st : bool * Manager * World) :
  (∀ d, d ∈ l → index nd d = true) →
  foldl (removeStep nd) st l = st.
Proof.
  revert st. induction l as [|x l IH]; intros st Hall; [done|].
  cbn [foldl]. destruct st as [[ch m] w]. rewrite removeStep_eq.
  rewrite (Hall x) by (by left). cbn [negb andb].
  apply IH. intros d Hd. apply Hall. by right.
Qed.

Lemma ensured_same (m m1 : Manager) (w w1 : World) (s : string) :
  bindIP m1 = bindIP m → resolverFilesDir m1 = resolverFilesDir m →
  readonly w1 = readonly w →
  (writable w (hintPath m s) = false →
   files w1 !! hintPath m s = files w !! hintPath m s) →
  ensured m1 w1 s = ensured m w s.
Proof.
  intros Hip Hdir Hro Hkept.
  unfold ensured, hintOk, writable, ReadFile, expectedContent.
  rewrite (hintPath_dir m m1 s Hdir), Hip, Hro.
  destruct (bool_decide (hintPath m s ∉ readonly w)) eqn:Hw.
  - by rewrite !orb_true_r.
  - rewrite !orb_false_r. by rewrite Hkept.
Qed.

(** X25: when no previously managed suffix outside the new suffix set has
    the hint path of a new suffix, a second pass with the same records,
    started from the manager and the world the first pass left, returns
    them unchanged: it appends no event (no write, no removal, no flush)
    and keeps the managed map. *)
Theorem second_pass_idle (m : Manager) (rs : list Record_) (w : World) :
  (∀ d s, d ∈ dom (managedDomains m) →
          d ∉ extractDomainSuffixes rs →
          s ∈ extractDomainSuffixes rs →
          hintPath m d ≠ hintPath m s) →
  let first := UpdateResolverFiles m rs w in
  let second := UpdateResolverFiles first.1.2 rs first.2 in
  second = first
  ∧ eventsOf first.2 second.2 = []
  ∧ managedDomains second.1.2 = managedDomains first.1.2.
Proof.
  intros Halias first second.
  assert (second = first) as Heq; [|by rewrite Heq, eventsOf_same].
  unfold second.
  destruct (decide (extractDomainSuffixes rs = [])) as [Hs|Hs].
  { unfold first. by rewrite !(Update_no_suffix _ rs _ Hs). }
  destruct (ensureResolverDir m w) as [[|e] w1] eqn:He.
  2:{ unfold first. rewrite !(Update_no_dir m rs w w1 e Hs He). cbn.
      apply (Update_no_dir m rs w w1 e Hs He). }
  destruct (pass_state m rs w w1 Hs He)
    as (Hnil & Hnew & Hip & Hdir & Hro & Hdirs & Hrem & Hkept & Hhint).
  fold first in Hnil, Hnew, Hip, Hdir, Hro, Hdirs, Hrem, Hkept, Hhint.
  destruct first as [[e1 m1] w'] eqn:Hfirst. cbn [fst snd] in *. subst e1.
  set (l := extractDomainSuffixes rs) in *.
  assert (∀ k, index (managedDomains m1) k = true
               ↔ k ∈ l ∧ ensured m w k = true) as Hidx.
  { intros k. rewrite index_true, Hnew. naive_solver. }
  assert (∀ p, writable w' p = writable w p) as Hwr.
  { intros p. unfold writable. by rewrite Hro. }
  (* the hints of the ensured suffixes are in place after the first pass *)
  assert (∀ s, s ∈ l → writable w (hintPath m s) = true →
               files w' !! hintPath m s = Some (expectedContent m)) as Hok.
  { intros s Hsl Hw. apply Hhint; [done..|].
    intros d Hd Hi Hpath.
    destruct (decide (d ∈ l)) as [Hdl|Hdl].
    - assert (index (managedDomains m1) d = true) as Ht; [|congruence].
      apply Hidx. split; [done|]. unfold ensured.
      rewrite Hpath, Hw. apply orb_true_r.
    - by apply (Halias d s). }
  assert (∀ s, ensured m1 w' s = ensured m w s) as Hens.
  { intros s. apply ensured_same; [done..|]. apply Hkept. }
  assert (ensureResolverDir m1 w' = (nil, w')) as He2.
  { unfold ensureResolverDir. by rewrite Hdir, Hdirs. }
  rewrite (Update_main m1 rs w' w' Hs He2). cbn zeta. fold l.
  pose proof (createLoop_inv m1 w' l) as HC.
  assert (world (foldl (createStep m1)
                   {| newDomains := ∅; changesMade := false; world := w' |}
                   l) = w') as Hworld.
  { apply createLoop_settled; [done|]. intros s Hsl.
    destruct (writable w (hintPath m s)) eqn:Hw.
    - left. unfold hintOk, ReadFile, expectedContent.
      rewrite (hintPath_dir m m1 s Hdir), Hip.
      apply bool_decide_eq_true_2. by apply Hok.
    - right. by rewrite (hintPath_dir m m1 s Hdir), Hwr. }
  set (st := foldl (createStep m1) _ l) in *.
  assert (newDomains st = managedDomains m1) as Hnd.
  { apply map_eq. intros k. apply option_eq. intros v.
    rewrite (ci_new _ _ _ _ HC), Hnew, Hens. done. }
  assert (changesMade st = false) as Hch.
  { destruct (changesMade st) eqn:Hc; [|done].
    apply (ci_changed _ _ _ _ HC) in Hc as (s & Hsl & He1 & Hi).
    rewrite Hens in He1.
    assert (index (managedDomains m1) s = true) by (by apply Hidx).
    congruence. }
  rewrite Hnd, Hch, Hworld.
  rewrite removeLoop_idle.
  - cbn. by destruct m1.
  - intros d Hd%rangeKeys_dom. apply elem_of_dom in Hd as [v Hv].
    apply index_true. by apply Hnew in Hv as Hv'; destruct Hv' as (-> & _).
Qed.

End ManagerFacts.

Section ManagerExamples.
Import reghost os resolver Spec Inv ManagerSamples.
#[local] Existing Instance refLib.

Lemma C3_witness :
  let r := UpdateResolverFiles managerAB recordsBC worldAB in
  let evs := eventsOf worldAB r.2 in
  (0 < count isRemove evs)%nat
  ∧ count isFlush evs = 1%nat
  ∧ last evs = Some EvFlush.
Proof.
  intros r evs.
  destruct (C3_flush_once managerAB recordsBC worldAB) as (_ & Hiff & Hlast).
  fold r in Hiff, Hlast. fold evs in Hiff, Hlast.
  assert (0 < count isRemove evs)%nat as Hrem by (vm_compute; lia).
  split; [exact Hrem|].
  assert (count isFlush evs = 1%nat) as Hone by (apply Hiff; by right).
  split; [exact Hone|]. by apply Hlast.
Defined.

(** C3 as stated fails when the hint of a suffix that is already managed
    has gone from the disk: the pass writes it again, and does not flush. *)
Lemma C3_counterexample :
  let r := UpdateResolverFiles managerCom recordsCom (Samples.worldWith ∅) in
  let evs := eventsOf (Samples.worldWith ∅) r.2 in
  evs = [EvWrite "/etc/resolver/com" sampleHint]
  ∧ count isWrite evs = 1%nat
  ∧ count isFlush evs = 0%nat.
Proof. vm_compute. done. Qed.

Lemma C4_witness :
  let r := UpdateResolverFiles managerAB recordsBC worldAB in
  "a" ∈ dom (managedDomains managerAB)
  ∧ ("a" ∉ extractDomainSuffixes recordsBC)
  ∧ ("a" ∉ dom (managedDomains r.1.2))
  ∧ ReadFile r.2 (hintPath managerAB "a") = None
  ∧ EvRemove (hintPath managerAB "a") ∈ eventsOf worldAB r.2.
Proof.
  intros r.
  assert ("a" ∈ dom (managedDomains managerAB)) as Hin
    by (apply (bool_decide_unpack _); vm_compute; exact I).
  assert ("a" ∉ extractDomainSuffixes recordsBC) as Hout
    by (apply (bool_decide_unpack _); vm_compute; exact I).
  assert (extractDomainSuffixes recordsBC ≠ []) as Hne
    by (apply (bool_decide_unpack _); vm_compute; exact I).
  destruct (proj1 (C4_stale_suffix_removed managerAB recordsBC worldAB "a")
              Hne eq_refl Hin Hout) as [Hgone Hfile].
  fold r in Hgone, Hfile.
  split; [exact Hin|]. split; [exact Hout|]. split; [exact Hgone|].
  apply Hfile. apply (bool_decide_unpack _). vm_compute. exact I.
Defined.

(** C4 as stated fails when the new records yield no suffix at all: the
    pass returns before its loops, and a previously managed suffix keeps
    its hint file and stays managed. *)
Lemma C4_counterexample :
  let r := UpdateResolverFiles managerOld recordsCatchAll worldOld in
  extractDomainSuffixes recordsCatchAll = []
  ∧ index (managedDomains managerOld) "old" = true
  ∧ index (managedDomains r.1.2) "old" = true
  ∧ ReadFile r.2 (hintPath managerOld "old") = Some sampleHint
  ∧ eventsOf worldOld r.2 = [].
Proof. vm_compute. done. Qed.

Lemma second_pass_idle_witness :
  let first := UpdateResolverFiles managerAB recordsBC worldAB in
  let second := UpdateResolverFiles first.1.2 recordsBC first.2 in
  second = first
  ∧ eventsOf first.2 second.2 = []
  ∧ managedDomains second.1.2 = managedDomains first.1.2.
Proof.
  apply (second_pass_idle managerAB recordsBC worldAB).
  intros d s Hd Hnot Hs.
  assert (extractDomainSuffixes recordsBC = ["c"; "b"]) as Hl
    by (vm_compute; reflexivity).
  rewrite Hl in Hnot, Hs.
  assert (dom (managedDomains managerAB) = {["a"; "b"]}) as Hdom
    by (vm_compute; reflexivity).
  rewrite Hdom in Hd.
  assert (d = "a") as -> by set_solver.
  assert (s = "c" ∨ s = "b") as [-> | ->] by set_solver;
    vm_compute; discriminate.
Defined.

(** C8 fails on the code.  From a fresh manager and an empty resolver
    directory, a pass for the domain [myhost/] writes the hint
    [/etc/resolver/myhost] and manages the suffix [myhost/].  The next
    pass, for the domain [myhost], finds that file right for the new suffix
    [myhost] and then removes it for the stale suffix [myhost/], whose hint
    has the same path: [myhost] is managed and its hint is missing.  A
    second pass with the same records has to write the file: it is not
    idle.  Both configurations pass [Validate]. *)
Lemma C8_shared_path_defect :
  let config := λ rs, {| types.ActiveRecord := "default";
                         types.Records := {["default" := rs]} |} in
  let w0 := Samples.worldWith ∅ in
  let zeroth := UpdateResolverFiles freshManager recordsMyhostSlash w0 in
  let first := UpdateResolverFiles zeroth.1.2 recordsMyhost zeroth.2 in
  let second := UpdateResolverFiles first.1.2 recordsMyhost first.2 in
  types.Validate (config recordsMyhostSlash) = None
  ∧ types.Validate (config recordsMyhost) = None
  ∧ eventsOf w0 zeroth.2
    = [EvWrite "/etc/resolver/myhost" sampleHint; EvFlush]
  ∧ zeroth.1.2 = managerSlash
  ∧ files zeroth.2 = files worldSlash
  ∧ hintPath managerSlash "myhost/" = hintPath managerSlash "myhost"
  ∧ first.1.1 = nil
  ∧ eventsOf zeroth.2 first.2 = [EvRemove "/etc/resolver/myhost"; EvFlush]
  ∧ GetManagedDomains first.1.2 = ["myhost"]
  ∧ ReadFile first.2 (hintPath first.1.2 "myhost") = None
  ∧ second.1.1 = nil
  ∧ eventsOf first.2 second.2 = [EvWrite "/etc/resolver/myhost" sampleHint]
  ∧ count isWrite (eventsOf first.2 second.2) = 1%nat
  ∧ second ≠ first.
Proof. vm_compute. repeat split; done. Qed.

End ManagerExamples.

(* ================================================================== *)
(** ** Further properties: matcher and handler *)

Section MatcherMore.
Context {L : GoLib}.
Import reghost Spec.

Lemma find_ext_in {A} (p p' : A → bool) (l : list A) :
  (∀ x, x ∈ l → p x = p' x) → List.find p l = List.find p' l.
Proof.
  induction l as [|x l IH]; intros Hp; [done|].
  simpl. rewrite (Hp x) by (by left).
  destruct (p' x); [done|]. apply IH. intros y Hy. apply Hp. by right.
Qed.

(** X1: a record whose domain does not start with the anchor, or whose
    pattern does not compile, takes part in matching by its name only: with
    such records [Match] answers from the first record whose normalised
    name is the normalised query. *)
Theorem Match_exact_only (rs : list Record_) (q : string) :
  (∀ r, r ∈ rs → strings.HasPrefix (Domain r) "^" = false
                 ∨ regexp_Compile (Domain r) = None) →
  Match (NewMatcher rs) q =
    match List.find (exactMatch q) rs with
    | Some r => (IP r, true)
    | None => (EmptyString, false)
    end.
Proof.
  intros Hlit. rewrite Match_NewMatcher. unfold firstMatch.
  rewrite (find_ext_in (recordMatches q) (exactMatch q)); [done|].
  intros r Hr. unfold recordMatches, regexMatch.
  destruct (Hlit r Hr) as [-> | ->]; by rewrite ?andb_false_r, orb_false_r.
Qed.

Lemma matchLoop_not_found (cache : gmap string Regexp) (d : string)
  (rs : list Record_) :
  snd (matchLoop cache d rs) = false →
  matchLoop cache d rs = (EmptyString, false)
  ∧ ∀ r, r ∈ rs → matchesRecord cache d r = false.
Proof.
  induction rs as [|r rs IH]; simpl.
  - intros _. split; [done|]. by intros r ?%elem_of_nil.
  - destruct (matchesRecord cache d r) eqn:Hm; [done|].
    intros [Heq Hall]%IH. split; [done|].
    intros x [->|Hx]%elem_of_cons; [done|by apply Hall].
Qed.

(** X2: whatever the matcher holds, a query that is not found comes back
    with the empty address, and then no record has the query's normalised
    name: a name declared in a record is always found. *)
Theorem Match_not_found (m : Matcher) (q : string) :
  snd (Match m q) = false →
  Match m q = (EmptyString, false)
  ∧ ∀ r, r ∈ records m → fqdn (Domain r) ≠ fqdn q.
Proof.
  unfold Match. intros [Heq Hall]%matchLoop_not_found.
  split; [done|]. intros r Hr Hname.
  specialize (Hall r Hr). unfold matchesRecord in Hall.
  rewrite Hname, eqb_refl_s in Hall. done.
Qed.

(** X3: for every matcher and every ASCII query, the answer does not depend
    on the case of the query, nor on a trailing dot being written. *)
Theorem Match_query_normal_form (m : Matcher) (q : string) :
  strings.isASCII q = true →
  Match m (strings.ToUpper q) = Match m q
  ∧ (strings.HasSuffix q "." = false → Match m (q +:+ ".") = Match m q).
Proof.
  intros Hq. unfold Match. split.
  - by rewrite fqdn_upper.
  - intros Hs. by rewrite fqdn_dot.
Qed.

End MatcherMore.

Section HandlerMore.
Context {L : GoLib}.
Import reghost miekg dns Spec Props.

Lemma serveQuestion_step (c : Cache) (r : Msg) (m0 : Msg) (q : Question) :
  Id m0 = Id r → Response m0 = true →
  Questions m0 = take 1 (Questions r) →
  let m := serveQuestion c r m0 q in
  Answer m = Answer m0 ++ option_list (answerOf c q)
  ∧ Rcode m = (if missed c q then RcodeNameError else Rcode m0)
  ∧ Id m = Id r ∧ Response m = true
  ∧ Questions m = take 1 (Questions r).
Proof.
  intros Hid Hresp Hqs. unfold serveQuestion, answerOf, missed.
  destruct (Qtype q =? TypeA) eqn:Ht; cbn [negb andb].
  - destruct (Lookup c (strings.ToLower (Name q))) as [ip []];
      cbn [snd negb option_list]; [done|].
    rewrite app_nil_r. cbn. repeat (split; [done|]).
    destruct (Questions r); [by rewrite Hqs|done].
  - cbn. by rewrite app_nil_r.
Qed.

Lemma serveQuestion_fold (c : Cache) (r : Msg) (qs : list Question)
  (m0 : Msg) :
  Id m0 = Id r → Response m0 = true →
  Questions m0 = take 1 (Questions r) →
  let m := foldl (serveQuestion c r) m0 qs in
  Answer m = Answer m0 ++ omap (answerOf c) qs
  ∧ Rcode m = (if existsb (missed c) qs then RcodeNameError else Rcode m0)
  ∧ Id m = Id r ∧ Response m = true
  ∧ Questions m = take 1 (Questions r).
Proof.
  revert m0. induction qs as [|q qs IH]; intros m0 Hid Hresp Hqs.
  - cbn. by rewrite app_nil_r.
  - cbn [foldl]. cbn zeta.
    destruct (serveQuestion_step c r m0 q Hid Hresp Hqs)
      as (Ha & Hr & Hid1 & Hresp1 & Hqs1).
    destruct (IH _ Hid1 Hresp1 Hqs1) as (Ha2 & Hr2 & Hrest).
    rewrite Ha2, Hr2, Ha, Hr, <- app_assoc. cbn [omap existsb].
    split; [cbn; by destruct (answerOf c q)|]. split; [|done].
    by destruct (missed c q), (existsb (missed c) qs).
Qed.

(** X4: the answer section of a reply holds, in the order of the questions,
    one address record for each address question whose lower-cased name is
    found, with the name as it was asked, TTL 300 and the found address;
    the other questions add nothing. *)
Theorem ServeDNS_answers (c : Cache) (r : Msg) :
  Answer (ServeDNS c r) = omap (answerOf c) (Questions r).
Proof.
  unfold ServeDNS.
  destruct (serveQuestion_fold c r (Questions r) (SetReply newMsg r))
    as (Ha & _); [done|done| |by rewrite Ha].
  cbn. by destruct (Questions r).
Qed.

(** X5: the reply is a response with the identifier of the request and its
    first question, and its code is the name error exactly when some
    address question found no record, also when other questions of the same
    request were answered. *)
Theorem ServeDNS_header (c : Cache) (r : Msg) :
  let reply := ServeDNS c r in
  Rcode reply = (if existsb (missed c) (Questions r)
                 then RcodeNameError else RcodeSuccess)
  ∧ Id reply = Id r
  ∧ Response reply = true
  ∧ Questions reply = take 1 (Questions r).
Proof.
  unfold ServeDNS.
  destruct (serveQuestion_fold c r (Questions r) (SetReply newMsg r))
    as (_ & Hr & Hrest); [done|done| |by rewrite Hr].
  cbn. by destruct (Questions r).
Qed.

End HandlerMore.

(* ================================================================== *)
(** ** Further properties: the resolver manager *)

Section ManagerMore.
Context {L : GoLib}.
Import reghost os resolver Spec Inv.

Lemma addSuffix_dom (rs : list Record_) (sm : gmap string bool) (k : string) :
  k ∈ dom (foldl addSuffix sm rs) ↔
  k ∈ dom sm
  ∨ (k ≠ "" ∧ ∃ r, r ∈ rs ∧ Domain r ≠ "" ∧ extractSuffix (Domain r) = k).
Proof.
  revert sm. induction rs as [|r rs IH]; intros sm.
  - cbn. split; [by left|]. intros [?|(_ & r & ?%elem_of_nil & _)]; done.
  - cbn [foldl]. rewrite IH. unfold addSuffix.
    destruct (String.eqb_spec (Domain r) "") as [Hd|Hd].
    + split; (intros [?|(Hk & x & Hx & Hxd & Hxs)]; [by left|right]).
      * split; [done|]. exists x. split; [by right|done].
      * split; [done|]. exists x. split; [|done].
        apply elem_of_cons in Hx as [->|Hx]; [done|done].
    + destruct (String.eqb_spec (extractSuffix (Domain r)) "") as [Hs|Hs];
        cbn [negb].
      * split; (intros [?|(Hk & x & Hx & Hxd & Hxs)]; [by left|right]).
        -- split; [done|]. exists x. split; [by right|done].
        -- split; [done|]. exists x. split; [|done].
           apply elem_of_cons in Hx as [->|Hx]; [congruence|done].
      * rewrite dom_insert_L, elem_of_union, elem_of_singleton. split.
        -- intros [[->|?]|(Hk & x & Hx & Hxd & Hxs)].
           ++ right. split; [done|]. exists r. split; [by left|done].
           ++ by left.
           ++ right. split; [done|]. exists x. split; [by right|done].
        -- intros [?|(Hk & x & Hx & Hxd & Hxs)]; [left; by right|].
           apply elem_of_cons in Hx as [->|Hx].
           ++ left. by left.
           ++ right. split; [done|]. by exists x.
Qed.

(** X6: the suffix list of a record list has no duplicate and no empty
    entry, and holds exactly the non-empty suffixes of the records with a
    non-empty domain. *)
Theorem extractDomainSuffixes_spec (rs : list Record_) :
  NoDup (extractDomainSuffixes rs)
  ∧ ∀ s, s ∈ extractDomainSuffixes rs ↔
         s ≠ "" ∧ ∃ r, r ∈ rs ∧ Domain r ≠ ""
                       ∧ extractSuffix (Domain r) = s.
Proof.
  unfold extractDomainSuffixes. split.
  - unfold rangeKeys. apply NoDup_fst_map_to_list.
  - intros s. rewrite rangeKeys_dom, addSuffix_dom, dom_empty_L.
    split; [intros [?%elem_of_empty|?]; done|by right].
Qed.

(** X7: the error of [createResolverFile] tells the state of the disk: it
    is nil exactly when the hint file holds the expected two lines
    afterwards; on an error the world is as before, and no other file is
    ever changed. *)
Theorem createResolverFile_reflects (m : Manager) (suffix : string)
  (w : World) :
  let r := createResolverFile m suffix w in
  (r.1 = nil ↔
   ReadFile r.2 (hintPath m suffix) = Some (expectedContent m))
  ∧ (r.1 ≠ nil → r.2 = w)
  ∧ ∀ p, p ≠ hintPath m suffix → ReadFile r.2 p = ReadFile w p.
Proof.
  cbn zeta. rewrite createResolverFile_eq. unfold hintOk, writable.
  case_bool_decide as Hok; cbn [fst snd].
  - done.
  - case_bool_decide as Hw; cbn [fst snd].
    + unfold written, ReadFile. cbn. rewrite lookup_insert_eq.
      split; [done|]. split; [done|].
      intros p Hp. by rewrite lookup_insert_ne.
    + split; [|done]. split; [done|]. intros ?. done.
Qed.

(** X8: a pass that reaches its loops returns no error, and afterwards a
    suffix is managed exactly when it is a suffix of the records and its
    own hint was already right or could be written: a hint that cannot be
    written neither stops the pass nor affects the other suffixes. *)
Theorem pass_tolerates_failures (m : Manager) (rs : list Record_)
  (w : World) :
  extractDomainSuffixes rs ≠ [] →
  (ensureResolverDir m w).1 = nil →
  let r := UpdateResolverFiles m rs w in
  r.1.1 = nil
  ∧ ∀ s, index (managedDomains r.1.2) s = true ↔
         s ∈ extractDomainSuffixes rs
         ∧ (ReadFile w (hintPath m s) = Some (expectedContent m)
            ∨ hintPath m s ∉ readonly w).
Proof.
  intros Hs He r.
  destruct (ensureResolverDir m w) as [e w1] eqn:Hens. cbn in He. subst e.
  destruct (pass_state m rs w w1 Hs Hens) as (Hnil & Hnew & _).
  fold r in Hnil, Hnew. split; [done|].
  intros s. rewrite index_true, Hnew. unfold ensured, hintOk, writable.
  rewrite orb_true_iff, !bool_decide_eq_true. naive_solver.
Qed.

(** X9: when no stale suffix shares its hint path with a new suffix, every
    suffix that is managed after a pass that reaches its loops has the
    expected content on disk, whatever was there before the pass. *)
Theorem pass_repairs_hints (m : Manager) (rs : list Record_) (w : World) :
  extractDomainSuffixes rs ≠ [] →
  (ensureResolverDir m w).1 = nil →
  (∀ d s, d ∈ dom (managedDomains m) →
          d ∉ extractDomainSuffixes rs →
          s ∈ extractDomainSuffixes rs →
          hintPath m d ≠ hintPath m s) →
  let r := UpdateResolverFiles m rs w in
  ∀ s, index (managedDomains r.1.2) s = true →
       ReadFile r.2 (hintPath m s) = Some (expectedContent m).
Proof.
  intros Hs He Halias r s Hman.
  destruct (ensureResolverDir m w) as [e w1] eqn:Hens. cbn in He. subst e.
  destruct (pass_state m rs w w1 Hs Hens)
    as (_ & Hnew & _ & _ & _ & _ & _ & Hkept & Hhint).
  fold r in Hnew, Hkept, Hhint.
  assert (∀ k, index (managedDomains r.1.2) k = true
               ↔ k ∈ extractDomainSuffixes rs ∧ ensured m w k = true)
    as Hidx.
  { intros k. rewrite index_true, Hnew. naive_solver. }
  apply Hidx in Hman as [Hin Hens1]. unfold ReadFile.
  destruct (writable w (hintPath m s)) eqn:Hw.
  - apply Hhint; [done..|]. intros d Hd Hi Hpath.
    destruct (decide (d ∈ extractDomainSuffixes rs)) as [Hdl|Hdl].
    + assert (index (managedDomains r.1.2) d = true) as Ht; [|congruence].
      apply Hidx. split; [done|]. unfold ensured.
      rewrite Hpath, Hw. apply orb_true_r.
    + by apply (Halias d s).
  - rewrite Hkept by done. unfold ensured in Hens1.
    rewrite Hw, orb_false_r in Hens1.
    by apply bool_decide_eq_true_1 in Hens1.
Qed.

End ManagerMore.

Section ManagerSafety.
Context {L : GoLib}.
Import reghost os resolver Spec Inv.

Lemma createLoop_events (m : Manager) (w : World) (l : list string) :
  ∃ evs,
    trace (world (foldl (createStep m)
                    {| newDomains := ∅; changesMade := false; world := w |}
                    l)) = trace w ++ evs
    ∧ ∀ e, e ∈ evs →
        ∃ s, s ∈ l ∧ e = EvWrite (hintPath m s) (expectedContent m).
Proof.
  induction l as [|x l IH] using rev_ind.
  - exists []. cbn. rewrite app_nil_r. split; [done|].
    by intros e ?%elem_of_nil.
  - rewrite foldl_app. cbn [foldl]. rewrite createStep_eq.
    destruct IH as (evs & Hevs & Hall).
    destruct (ensured m _ x); cycle 1.
    { exists evs. split; [done|]. intros e He.
      destruct (Hall e He) as (s & ? & ?). exists s. set_solver. }
    cbn [world]. destruct (hintOk m _ x).
    { exists evs. split; [done|]. intros e He.
      destruct (Hall e He) as (s & ? & ?). exists s. set_solver. }
    exists (evs ++ [EvWrite (hintPath m x) (expectedContent m)]).
    cbn. rewrite Hevs, app_assoc. split; [done|].
    intros e [He| ->%list_elem_of_singleton]%elem_of_app.
    + destruct (Hall e He) as (s & ? & ?). exists s. set_solver.
    + exists x. set_solver.
Qed.

Lemma removeLoop_events (nd : gmap string bool) (m : Manager) (w : World)
  (ch0 : bool) (l : list string) :
  ∃ evs,
    trace (foldl (removeStep nd) (ch0, m, w) l).2 = trace w ++ evs
    ∧ ∀ e, e ∈ evs →
        ∃ d, d ∈ l ∧ index nd d = false ∧ e = EvRemove (hintPath m d).
Proof.
  induction l as [|x l IH] using rev_ind.
  - exists []. cbn. rewrite app_nil_r. split; [done|].
    by intros e ?%elem_of_nil.
  - rewrite foldl_app. cbn [foldl].
    pose proof (removeLoop_inv nd m w ch0 l) as HR.
    destruct (foldl (removeStep nd) (ch0, m, w) l) as [[ch m'] w'] eqn:Hr.
    destruct HR as [_ _ Hdir _ _ _ _]. cbn [fst snd] in *.
    rewrite removeStep_eq, (hintPath_dir m m' x Hdir).
    destruct IH as (evs & Hevs & Hall).
    destruct (negb (index nd x) && writable w' (hintPath m x)) eqn:Hc.
    + apply andb_true_iff in Hc as [Hx _]. apply negb_true_iff in Hx.
      exists (evs ++ [EvRemove (hintPath m x)]).
      cbn. rewrite Hevs, app_assoc. split; [done|].
      intros e [He| ->%list_elem_of_singleton]%elem_of_app.
      * destruct (Hall e He) as (d & ? & ?). exists d. set_solver.
      * exists x. set_solver.
    + exists evs. split; [done|]. intros e He.
      destruct (Hall e He) as (d & ? & ?). exists d. set_solver.
Qed.

(** X10: whatever happens in a pass, it changes no file other than the hint
    files of the new suffixes and of the previously managed suffixes, and
    the only commands it runs are: creating the resolver directory, writing
    the expected content to the hint file of a new suffix, removing the
    hint file of a previously managed suffix that is not managed
    afterwards, and the flush. *)
Theorem pass_touches_own_hints_only (m : Manager) (rs : list Record_)
  (w : World) :
  let r := UpdateResolverFiles m rs w in
  (∀ p, (∀ s, s ∈ extractDomainSuffixes rs → hintPath m s ≠ p) →
        (∀ d, d ∈ dom (managedDomains m) → hintPath m d ≠ p) →
        ReadFile r.2 p = ReadFile w p)
  ∧ ∀ e, e ∈ eventsOf w r.2 →
      e = EvMkdir (resolverFilesDir m)
      ∨ (∃ s, s ∈ extractDomainSuffixes rs
              ∧ e = EvWrite (hintPath m s) (expectedContent m))
      ∨ (∃ d, d ∈ dom (managedDomains m)
              ∧ index (managedDomains r.1.2) d = false
              ∧ e = EvRemove (hintPath m d))
      ∨ e = EvFlush.
Proof.
  intros r.
  assert (r.2 = w →
          (∀ p, (∀ s, s ∈ extractDomainSuffixes rs → hintPath m s ≠ p) →
                (∀ d, d ∈ dom (managedDomains m) → hintPath m d ≠ p) →
                ReadFile r.2 p = ReadFile w p)
          ∧ ∀ e, e ∈ eventsOf w r.2 →
              e = EvMkdir (resolverFilesDir m)
              ∨ (∃ s, s ∈ extractDomainSuffixes rs
                      ∧ e = EvWrite (hintPath m s) (expectedContent m))
              ∨ (∃ d, d ∈ dom (managedDomains m)
                      ∧ index (managedDomains r.1.2) d = false
                      ∧ e = EvRemove (hintPath m d))
              ∨ e = EvFlush) as Hidle.
  { intros ->. split; [done|]. rewrite eventsOf_same.
    by intros e ?%elem_of_nil. }
  destruct (decide (extractDomainSuffixes rs = [])) as [Hs|Hs].
  { apply Hidle. unfold r. by rewrite (Update_no_suffix m rs w Hs). }
  destruct (ensureResolverDir m w) as [[|e0] w1] eqn:He.
  2:{ apply Hidle. unfold r. by rewrite (Update_no_dir m rs w w1 e0 Hs He). }
  clear Hidle. unfold r. rewrite (Update_main m rs w w1 Hs He).
  cbn zeta. set (l := extractDomainSuffixes rs).
  pose proof (createLoop_inv m w1 l) as HC.
  destruct (createLoop_events m w1 l) as (evs1 & Hevs1 & Hall1).
  set (st := foldl (createStep m) _ l) in *.
  pose proof (removeLoop_inv (newDomains st) m (world st) (changesMade st)
                (rangeKeys (managedDomains m))) as HR.
  destruct (removeLoop_events (newDomains st) m (world st) (changesMade st)
              (rangeKeys (managedDomains m))) as (evs2 & Hevs2 & Hall2).
  destruct (foldl (removeStep (newDomains st)) _ _) as [[ch m'] w'].
  destruct HR as [_ _ _ _ _ Hkept _].
  cbn [fst snd] in *.
  assert (files w1 = files w ∧
          ∃ evs0, trace w1 = trace w ++ evs0
                  ∧ ∀ e, e ∈ evs0 → e = EvMkdir (resolverFilesDir m))
    as (Hf1 & evs0 & Hevs0 & Hall0).
  { revert He. unfold ensureResolverDir, mkdir_p.
    destruct (dirExists w (resolverFilesDir m)); cbn [negb].
    - intros [= <-]. split; [done|]. exists []. rewrite app_nil_r.
      split; [done|]. by intros e ?%elem_of_nil.
    - case_bool_decide; [done|]. intros [= <-]. split; [done|].
      eexists [_]. split; [done|]. by intros e ->%list_elem_of_singleton. }
  split.
  - intros p Hsuf Hman.
    assert (ReadFile (if ch then flushDNSCache w' else w') p
            = files w' !! p) as -> by (by destruct ch).
    rewrite Hkept.
    + rewrite (ci_kept _ _ _ _ HC); [by unfold ReadFile; rewrite Hf1|].
      right. intros (s & -> & Hsl)%list_elem_of_fmap. by apply (Hsuf s).
    + intros d Hd%rangeKeys_dom _ _. by apply Hman.
  - intros e Hin.
    assert (eventsOf w (if ch then flushDNSCache w' else w')
            = evs0 ++ evs1 ++ evs2 ++ (if ch then [EvFlush] else []))
      as Hev.
    { apply eventsOf_app. destruct ch; cbn; rewrite Hevs2, Hevs1, Hevs0;
        by rewrite <- !app_assoc, ?app_nil_r. }
    rewrite Hev in Hin.
    apply elem_of_app in Hin as [Hin|Hin]; [left; by apply Hall0|].
    apply elem_of_app in Hin as [Hin|Hin]; [right; left; by apply Hall1|].
    apply elem_of_app in Hin as [Hin|Hin].
    + right; right; left.
      destruct (Hall2 e Hin) as (d & Hd%rangeKeys_dom & Hi & ->).
      exists d. split; [done|]. split; [|done]. by destruct ch.
    + right; right; right. destruct ch; [|by apply elem_of_nil in Hin].
      by apply list_elem_of_singleton in Hin.
Qed.

Lemma cleanup_fold (l : list string) (ch : bool) (m : Manager) (w : World) :
  foldl cleanupStep (m, w) l
  = ((foldl (removeStep ∅) (ch, m, w) l).1.2,
     (foldl (removeStep ∅) (ch, m, w) l).2).
Proof.
  revert ch m w. induction l as [|x l IH]; intros ch m w; [done|].
  cbn [foldl].
  assert (∃ ch', removeStep ∅ (ch, m, w) x
                 = (ch', (cleanupStep (m, w) x).1, (cleanupStep (m, w) x).2))
    as [ch' ->].
  { unfold removeStep, cleanupStep. cbn [index negb].
    unfold index. rewrite lookup_empty. cbn.
    destruct (removeResolverFile m x w) as [[[|?] ?] ?]; eauto. }
  rewrite <- IH. by destruct (cleanupStep (m, w) x).
Qed.

Lemma CleanupAll_removes (m : Manager) (w : World) :
  let r := CleanupAll m w in
  GetManagedDomains r.1.2 = []
  ∧ ∀ d, d ∈ dom (managedDomains m) → hintPath m d ∉ readonly w →
         ReadFile r.2 (hintPath m d) = None.
Proof.
  intros r. unfold r, CleanupAll.
  rewrite (cleanup_fold _ false).
  pose proof (removeLoop_inv ∅ m w false (rangeKeys (managedDomains m)))
    as HR.
  destruct (foldl (removeStep ∅) _ _) as [[ch m'] w'].
  destruct HR as [_ _ _ _ Hrem _ _].
  cbn [fst snd] in *. unfold ReadFile. cbn [flushDNSCache emit files].
  split; [done|].
  intros d Hd Hw. apply Hrem; [by apply rangeKeys_dom|done|].
  by apply bool_decide_eq_true_2.
Qed.

(** X11: [CleanupAll] returns no error and leaves no managed suffix; it
    runs one removal per managed suffix whose hint path can be modified and
    then, always, one flush; the hint files of those suffixes are gone,
    files on paths that cannot be modified stay although their suffixes are
    no longer managed, and no other file is changed. *)
Theorem CleanupAll_spec (m : Manager) (w : World) :
  let r := CleanupAll m w in
  r.1.1 = nil
  ∧ GetManagedDomains r.1.2 = []
  ∧ (∃ rems, eventsOf w r.2 = rems ++ [EvFlush]
             ∧ Forall (λ e, isRemove e = true) rems)
  ∧ (∀ d, d ∈ dom (managedDomains m) → hintPath m d ∉ readonly w →
          ReadFile r.2 (hintPath m d) = None)
  ∧ (∀ p, p ∈ readonly w → ReadFile r.2 p = ReadFile w p)
  ∧ (∀ p, (∀ d, d ∈ dom (managedDomains m) → hintPath m d ≠ p) →
          ReadFile r.2 p = ReadFile w p).
Proof.
  intros r. unfold r, CleanupAll.
  rewrite (cleanup_fold _ false).
  pose proof (removeLoop_inv ∅ m w false (rangeKeys (managedDomains m)))
    as HR.
  destruct (foldl (removeStep ∅) _ _) as [[ch m'] w'].
  destruct HR as [Hro _ _ _ Hrem Hkept (rems & Hevs & Hall & _)].
  cbn [fst snd] in *. unfold ReadFile. cbn [flushDNSCache emit files].
  split; [done|]. split; [done|]. split; [|split; [|split]].
  - exists rems. split; [|done]. apply eventsOf_app. cbn.
    by rewrite Hevs, app_assoc.
  - intros d Hd Hw. apply Hrem; [by apply rangeKeys_dom|done|].
    by apply bool_decide_eq_true_2.
  - intros p Hp. apply Hkept. intros d _ _ Hw.
    apply bool_decide_eq_true_1 in Hw. done.
  - intros p Hp. apply Hkept. intros d Hd%rangeKeys_dom _ _. by apply Hp.
Qed.

Lemma rangeKeys_empty : rangeKeys ∅ = [].
Proof. unfold rangeKeys. by rewrite map_to_list_empty. Qed.

(** X12: a second [CleanupAll] right after the first finds nothing to
    remove and changes no file, and still flushes the cache once more. *)
Theorem CleanupAll_twice (m : Manager) (w : World) :
  let first := CleanupAll m w in
  let second := CleanupAll first.1.2 first.2 in
  eventsOf first.2 second.2 = [EvFlush]
  ∧ files second.2 = files first.2
  ∧ managedDomains second.1.2 = ∅.
Proof.
  intros first second. unfold second, first, CleanupAll.
  destruct (foldl cleanupStep (m, w) _) as [m1 w1].
  cbn [fst snd setManaged managedDomains].
  rewrite rangeKeys_empty. cbn [foldl fst snd setManaged managedDomains].
  split; [|done]. by apply eventsOf_app.
Qed.

(** X13: what a pass manages, [CleanupAll] removes: the hint file of every
    suffix managed after a pass is gone after the clean-up, provided its
    path can be modified. *)
Theorem CleanupAll_after_pass (m : Manager) (rs : list Record_)
  (w : World) (s : string) :
  let r := UpdateResolverFiles m rs w in
  let c := CleanupAll r.1.2 r.2 in
  index (managedDomains r.1.2) s = true →
  hintPath m s ∉ readonly w →
  ReadFile c.2 (hintPath m s) = None ∧ GetManagedDomains c.1.2 = [].
Proof.
  intros r c Hman Hw.
  assert (resolverFilesDir r.1.2 = resolverFilesDir m
          ∧ readonly r.2 = readonly w) as [Hdir Hro].
  { destruct (decide (extractDomainSuffixes rs = [])) as [Hs|Hs].
    { unfold r. by rewrite (Update_no_suffix m rs w Hs). }
    destruct (ensureResolverDir m w) as [[|e0] w1] eqn:He.
    2:{ unfold r. by rewrite (Update_no_dir m rs w w1 e0 Hs He). }
    by destruct (pass_state m rs w w1 Hs He)
      as (_ & _ & _ & ? & ? & _). }
  destruct (CleanupAll_removes r.1.2 r.2) as (Hempty & Hrem).
  fold c in Hempty, Hrem. split; [|done].
  rewrite <- (hintPath_dir m r.1.2 s Hdir). apply Hrem.
  - apply elem_of_dom. apply index_true in Hman. eauto.
  - by rewrite (hintPath_dir m r.1.2 s Hdir), Hro.
Qed.

End ManagerSafety.

(* ================================================================== *)
(** ** Further properties: the suffix of an ordinary host name *)

Section PlainSuffix.
Context {L : GoLib}.
Import strings resolver Names.

Lemma allBytes_app (p : ascii → bool) (a b : string) :
  allBytes p (a +:+ b) = allBytes p a && allBytes p b.
Proof.
  induction a as [|c a IH]; [done|].
  rewrite app_cons. cbn [allBytes]. by rewrite IH, andb_assoc.
Qed.

Lemma allBytes_impl (p q : ascii → bool) (s : string) :
  (∀ c, p c = true → q c = true) → allBytes p s = true → allBytes q s = true.
Proof.
  intros Hpq. induction s as [|c s IH]; [done|]. cbn [allBytes].
  intros [Hc Hs]%andb_true_iff. by rewrite (Hpq c Hc), IH.
Qed.

Lemma plainByte_ordinary (c : ascii) :
  plainByte c = true →
  isASCIIbyte c = true
  ∧ c ≠ "^"%char ∧ c ≠ "$"%char ∧ c ≠ "\"%char ∧ c ≠ "["%char
  ∧ c ≠ "("%char ∧ c ≠ ")"%char ∧ c ≠ "+"%char ∧ c ≠ "*"%char
  ∧ c ≠ "?"%char ∧ c ≠ "|"%char.
Proof.
  destruct c as [[] [] [] [] [] [] [] []]; vm_compute; intros H;
    try discriminate H; repeat split; discriminate.
Qed.

Lemma labelByte_ordinary (c : ascii) :
  labelByte c = true →
  plainByte c = true ∧ isASCIIbyte c = true ∧ asciiSpace c = false
  ∧ c ≠ "."%char.
Proof.
  destruct c as [[] [] [] [] [] [] [] []]; vm_compute; intros H;
    try discriminate H; repeat split; discriminate.
Qed.

Lemma label_plainName (s : string) : label s = true → plainName s = true.
Proof.
  apply allBytes_impl. intros c Hc. by apply labelByte_ordinary.
Qed.

Lemma prefix_head_ne (o c : ascii) (old r : string) :
  o ≠ c → String.prefix (String o old) (String c r) = false.
Proof. intros Hne. cbn. by destruct (ascii_dec o c). Qed.

Lemma replaceFrom_absent (p : ascii → bool) (o : ascii) (old new s : string) :
  (∀ c, p c = true → c ≠ o) → allBytes p s = true →
  ReplaceAll s (String o old) new = s.
Proof.
  intros Hp. unfold ReplaceAll. induction s as [|c s IH]; [done|].
  cbn [allBytes]. intros [Hc Hs]%andb_true_iff.
  cbn [replaceFrom]. rewrite prefix_head_ne by (intros ->; by apply (Hp c)).
  by rewrite IH.
Qed.

Lemma removeSpans_absent (p : ascii → bool) (o : ascii) (close s : string) :
  (∀ c, p c = true → c ≠ o) → allBytes p s = true →
  removeSpans o close 0 s = s.
Proof.
  intros Hp. induction s as [|c s IH]; [done|].
  cbn [allBytes]. intros [Hc Hs]%andb_true_iff.
  cbn [removeSpans].
  destruct (Ascii.eqb_spec c o) as [->|_]; [by destruct (Hp o Hc)|].
  by rewrite IH.
Qed.

Lemma HasSuffix_absent (p : ascii → bool) (x : ascii) (s : string) :
  (∀ c, p c = true → c ≠ x) → allBytes p s = true →
  HasSuffix s (String x "") = false.
Proof.
  intros Hp. induction s as [|c s IH]; [done|].
  cbn [allBytes]. intros [Hc Hs]%andb_true_iff.
  rewrite HasSuffix_cons, IH by done. rewrite orb_false_r.
  cbn. destruct (Ascii.eqb_spec c x) as [->|_]; [by destruct (Hp x Hc)|done].
Qed.

Lemma HasSuffix_app_absent (p : ascii → bool) (x : ascii) (a b : string) :
  (∀ c, p c = true → c ≠ x) → allBytes p b = true → b ≠ "" →
  HasSuffix (a +:+ b) (String x "") = false.
Proof.
  intros Hp Hb Hne. induction a as [|c a IH].
  - rewrite app_nil_l. by apply (HasSuffix_absent p).
  - rewrite app_cons, HasSuffix_cons, IH, orb_false_r. cbn.
    destruct (Ascii.eqb c x); [|done].
    destruct a; [|done]. rewrite app_nil_l. by destruct b.
Qed.

Lemma HasPrefix_absent (p : ascii → bool) (x : ascii) (s : string) :
  (∀ c, p c = true → c ≠ x) → allBytes p s = true →
  HasPrefix s (String x "") = false.
Proof.
  intros Hp. destruct s as [|c s]; [done|].
  cbn [allBytes]. intros [Hc Hs]%andb_true_iff.
  unfold HasPrefix. apply prefix_head_ne. intros ->. by apply (Hp c).
Qed.

Lemma substring_all (a b : string) :
  String.substring 0 (String.length a) (a +:+ b) = a.
Proof.
  induction a as [|c a IH]; [by destruct b|].
  rewrite app_cons. cbn [String.length String.substring]. by rewrite IH.
Qed.

Lemma length_app_one (a : string) (x : ascii) :
  String.length (a +:+ String x "") = S (String.length a).
Proof.
  induction a as [|c a IH]; [done|].
  rewrite app_cons. cbn [String.length]. by rewrite IH.
Qed.

Lemma TrimSuffix_app_dot (a : string) : TrimSuffix (a +:+ ".") "." = a.
Proof.
  unfold TrimSuffix. rewrite HasSuffix_app_dot, length_app_one.
  cbn [String.length Nat.sub]. rewrite Nat.sub_0_r. apply substring_all.
Qed.

Lemma rev_app_twice (a b c : string) :
  String.rev_app (String.rev_app a b) c = String.rev_app b (a +:+ c).
Proof.
  revert b c. induction a as [|x a IH]; intros b c; [done|].
  cbn [String.rev_app]. rewrite IH. by rewrite app_cons.
Qed.

Lemma rev_rev (s : string) : String.rev (String.rev s) = s.
Proof.
  unfold String.rev. rewrite rev_app_twice. cbn. apply app_empty_r.
Qed.

Lemma allBytes_rev_app (p : ascii → bool) (a b : string) :
  allBytes p (String.rev_app a b) = allBytes p a && allBytes p b.
Proof.
  revert b. induction a as [|x a IH]; intros b; [done|].
  cbn [String.rev_app allBytes]. rewrite IH. cbn [allBytes].
  by destruct (p x), (allBytes p a).
Qed.

Lemma rev_app_not_empty (a b : string) :
  b ≠ "" → String.rev_app a b ≠ "".
Proof.
  revert b. induction a as [|x a IH]; intros b Hb; [done|].
  cbn [String.rev_app]. by apply IH.
Qed.

(** Trimming leaves a non-empty label as it is. *)
Lemma TrimSpace_label (s : string) :
  label s = true → TrimSpace s = s.
Proof.
  destruct s as [|c s]; [done|]. intros Hl.
  pose proof Hl as Hall. unfold label in Hl. cbn [allBytes] in Hl.
  apply andb_true_iff in Hl as [Hc _].
  destruct (labelByte_ordinary c Hc) as (_ & Hasc & Hsp & _).
  cbn [TrimSpace]. rewrite Hasc, Hsp. cbn [negb].
  assert (label (String.rev (String c s)) = true) as Hrev.
  { unfold label, String.rev. rewrite allBytes_rev_app.
    fold (label (String c s)). by rewrite Hall. }
  assert (String.rev (String c s) ≠ "") as Hne.
  { unfold String.rev. cbn [String.rev_app]. by apply rev_app_not_empty. }
  destruct (String.rev (String c s)) as [|d r] eqn:Hr; [done|].
  unfold label in Hrev. cbn [allBytes] in Hrev.
  apply andb_true_iff in Hrev as [Hd _].
  destruct (labelByte_ordinary d Hd) as (_ & Hasc' & Hsp' & _).
  cbn [trimSpaceRight]. rewrite Hasc', Hsp'. cbn [negb].
  by rewrite <- Hr, rev_rev.
Qed.

Lemma cleanParts_app (a b : list string) :
  cleanParts (a ++ b) = cleanParts a ++ cleanParts b.
Proof.
  induction a as [|x a IH]; [done|].
  cbn [app cleanParts]. destruct (negb _); [|done].
  by rewrite IH.
Qed.

Lemma splitFrom_whole (cur x : string) :
  label x = true → splitFrom "." cur 0 x = [String.rev cur +:+ x].
Proof.
  revert cur. induction x as [|c x IH]; intros cur Hx.
  - cbn [splitFrom]. by rewrite app_empty_r.
  - unfold label in Hx. cbn [allBytes] in Hx.
    apply andb_true_iff in Hx as [Hc Hx].
    destruct (labelByte_ordinary c Hc) as (_ & _ & _ & Hdot).
    rewrite splitFrom_cons, prefix_single.
    destruct (Ascii.eqb_spec "." c) as [<-|_]; [done|].
    rewrite IH by done. by rewrite rev_cons_append.
Qed.

(** The last piece of a split is what follows the last separator. *)
Lemma splitFrom_last (cur pre tld : string) :
  label tld = true →
  ∃ init, splitFrom "." cur 0 (pre +:+ "." +:+ tld) = init ++ [tld].
Proof.
  intros Htld. revert cur. induction pre as [|c pre IH]; intros cur.
  - rewrite app_nil_l, app_cons, splitFrom_cons, prefix_single.
    cbn [Ascii.eqb Bool.eqb andb String.length Nat.sub].
    rewrite app_nil_l, (splitFrom_whole "" tld Htld).
    exists [String.rev cur]. done.
  - rewrite app_cons, splitFrom_cons, prefix_single.
    destruct (Ascii.eqb "." c).
    + cbn [String.length Nat.sub]. destruct (IH "") as [init ->].
      by exists (String.rev cur :: init).
    + apply IH.
Qed.

Lemma last_part (init : list string) (tld : string) :
  label tld = true → tld ≠ "" →
  let parts := cleanParts (init ++ [tld]) in
  (if (length parts =? 0)%nat then ""
   else if (1 <=? length parts)%nat then default "" (last parts) else "")
  = tld.
Proof.
  intros Htld Hne parts. unfold parts. rewrite cleanParts_app.
  cbn [cleanParts]. rewrite (TrimSpace_label tld Htld).
  destruct (String.eqb_spec tld "") as [|_]; [done|]. cbn [negb].
  rewrite length_app, last_snoc. cbn [length default].
  rewrite Nat.add_1_r. done.
Qed.

(** After the trailing dot is cut, an ordinary host name goes through the
    removal of the pattern syntax unchanged. *)
Lemma extractSuffix_trimmed (d pre tld : string) :
  plainName pre = true → label tld = true → tld ≠ "" →
  TrimSuffix d "." = pre +:+ "." +:+ tld ∨ (TrimSuffix d "." = tld) →
  extractSuffix d = tld.
Proof.
  intros Hpre Htld Hne Htrim.
  assert (∃ s init, TrimSuffix d "." = s ∧ plainName s = true
                    ∧ HasSuffix s "$" = false
                    ∧ Split s "." = init ++ [tld])
    as (s & init & Hs & Hplain & Hdollar & Hsplit).
  { assert (∀ c, labelByte c = true → c ≠ "$"%char) as Hlab.
    { intros c Hc. apply labelByte_ordinary in Hc as (Hc & _).
      by apply plainByte_ordinary in Hc as (_ & _ & ? & _). }
    destruct Htrim as [Ht|Ht].
    - destruct (splitFrom_last "" pre tld Htld) as [init Hi].
      exists (pre +:+ "." +:+ tld), init. split; [done|].
      split; [|split; [|done]].
      + unfold plainName. rewrite !allBytes_app.
        fold (plainName pre) (plainName tld).
        by rewrite Hpre, (label_plainName tld Htld).
      + rewrite <- app_assoc_s.
        by apply (HasSuffix_app_absent labelByte).
    - exists tld, []. split; [done|].
      split; [by apply label_plainName|]. split.
      + by apply (HasSuffix_absent labelByte).
      + unfold Split. by rewrite (splitFrom_whole "" tld Htld). }
  unfold extractSuffix. rewrite Hs.
  assert (TrimPrefix s "^" = s) as ->.
  { unfold TrimPrefix. rewrite (HasPrefix_absent plainByte "^" s); [done| |done].
    intros c Hc. by apply plainByte_ordinary in Hc as (_&?&_). }
  assert (TrimSuffix s "$" = s) as -> by (unfold TrimSuffix; by rewrite Hdollar).
  rewrite (replaceFrom_absent plainByte "\" "." "." s)
    by (done || intros c Hc;
        by apply plainByte_ordinary in Hc as (_&_&_&?&_)).
  rewrite (removeSpans_absent plainByte "[" "]" s)
    by (done || intros c Hc;
        by apply plainByte_ordinary in Hc as (_&_&_&_&?&_)).
  rewrite !(removeSpans_absent plainByte "(" _ s)
    by (done || intros c Hc;
        by apply plainByte_ordinary in Hc as (_&_&_&_&_&?&_)).
  rewrite (replaceFrom_absent plainByte "+" "" "" s)
    by (done || intros c Hc;
        by apply plainByte_ordinary in Hc as (_&_&_&_&_&_&_&?&_)).
  rewrite (replaceFrom_absent plainByte "*" "" "" s)
    by (done || intros c Hc;
        by apply plainByte_ordinary in Hc as (_&_&_&_&_&_&_&_&?&_)).
  rewrite (replaceFrom_absent plainByte "?" "" "" s)
    by (done || intros c Hc;
        by apply plainByte_ordinary in Hc as (_&_&_&_&_&_&_&_&_&?&_)).
  rewrite (replaceFrom_absent plainByte "(" "" "" s)
    by (done || intros c Hc;
        by apply plainByte_ordinary in Hc as (_&_&_&_&_&?&_)).
  rewrite (replaceFrom_absent plainByte ")" "" "" s)
    by (done || intros c Hc;
        by apply plainByte_ordinary in Hc as (_&_&_&_&_&_&?&_)).
  rewrite (replaceFrom_absent plainByte "|" "" "" s)
    by (done || intros c Hc;
        by apply plainByte_ordinary in Hc as (_&_&_&_&_&_&_&_&_&_&?)).
  rewrite Hsplit. exact (last_part init tld Htld Hne).
Qed.

(** X24: for an ordinary host name, made of labels of letters, digits and
    hyphens with dots between them, the suffix is the last label, with or
    without a trailing dot on the name; a single label is its own suffix. *)
Theorem extractSuffix_plain (pre tld : string) :
  plainName pre = true → label tld = true → tld ≠ "" →
  extractSuffix tld = tld
  ∧ extractSuffix (pre +:+ "." +:+ tld) = tld
  ∧ extractSuffix (pre +:+ "." +:+ tld +:+ ".") = tld.
Proof.
  intros Hpre Htld Hne.
  assert (∀ c, labelByte c = true → c ≠ "."%char) as Hdot.
  { intros c Hc. by apply labelByte_ordinary in Hc as (_ & _ & _ & ?). }
  split; [|split].
  - apply (extractSuffix_trimmed tld pre tld); [done..|]. right.
    unfold TrimSuffix. by rewrite (HasSuffix_absent labelByte).
  - apply (extractSuffix_trimmed _ pre tld); [done..|]. left.
    unfold TrimSuffix. rewrite <- app_assoc_s.
    by rewrite (HasSuffix_app_absent labelByte).
  - apply (extractSuffix_trimmed _ pre tld); [done..|]. left.
    rewrite <- (app_assoc_s "." tld "."), <- (app_assoc_s pre).
    apply TrimSuffix_app_dot.
Qed.

End PlainSuffix.

Section PlainSuffixExamples.
Import strings resolver Names.
#[local] Existing Instance refLib.

Lemma extractSuffix_plain_witness :
  extractSuffix "local" = "local"
  ∧ extractSuffix ("api.my-host" +:+ "." +:+ "local") = "local"
  ∧ extractSuffix ("api.my-host" +:+ "." +:+ "local" +:+ ".") = "local".
Proof.
  apply (extractSuffix_plain "api.my-host" "local");
    [reflexivity | reflexivity | discriminate].
Defined.

End PlainSuffixExamples.

(* ================================================================== *)
(** ** Further properties: the server *)

Section AllocatorMore.
Import os server Spec.

Lemma bindLoop_skip (goos : GOOS) (env : nat → Attempt) (i n : nat) :
  skipped goos (env i) →
  bindLoop goos env i (S n) = bindLoop goos env (S i) n.
Proof.
  intros Hsk. cbn [bindLoop].
  destruct (String.eqb_spec (candidate (env i)) "127.0.0.1") as [|Hne];
    [done|].
  destruct (isIPInUse goos (env i) (candidate (env i))) eqn:Huse; [done|].
  destruct (addLoopbackAlias goos (env i) (candidate (env i))) eqn:Hadd;
    [|done].
  unfold skipped in Hsk. destruct Hsk as [?|[?|?]]; congruence.
Qed.

Lemma bindLoop_take (goos : GOOS) (env : nat → Attempt) (i n : nat) :
  ¬ skipped goos (env i) →
  bindLoop goos env i (S n) = (candidate (env i), nil).
Proof.
  intros Hfree. cbn [bindLoop]. unfold skipped in Hfree.
  destruct (String.eqb_spec (candidate (env i)) "127.0.0.1") as [|Hne];
    [tauto|].
  destruct (isIPInUse goos (env i) (candidate (env i))) eqn:Huse; [tauto|].
  destruct (addLoopbackAlias goos (env i) (candidate (env i))) eqn:Hadd;
    [done|].
  exfalso. apply Hfree. right; right. done.
Qed.

Lemma bindLoop_first_free (goos : GOOS) (env : nat → Attempt) (n i j : nat) :
  (i ≤ j < i + n)%nat →
  (∀ k, (i ≤ k < j)%nat → skipped goos (env k)) →
  ¬ skipped goos (env j) →
  bindLoop goos env i n = (candidate (env j), nil).
Proof.
  revert i. induction n as [|n IH]; intros i Hj Hsk Hfree; [lia|].
  destruct (decide (i = j)) as [->|Hne].
  - by apply bindLoop_take.
  - rewrite bindLoop_skip by (apply Hsk; lia).
    apply IH; [lia| |done]. intros k Hk. apply Hsk. lia.
Qed.

Lemma bindLoop_exhausted (goos : GOOS) (env : nat → Attempt) (n i : nat) :
  (∀ k, (i ≤ k < i + n)%nat → skipped goos (env k)) →
  bindLoop goos env i n = ("", failure "failed to find available loopback IP").
Proof.
  revert i. induction n as [|n IH]; intros i Hsk; [done|].
  rewrite bindLoop_skip by (apply Hsk; lia).
  apply IH. intros k Hk. apply Hsk. lia.
Qed.

(** X14: the allocation loop returns the candidate of the first of its 100
    iterations whose candidate is not the reserved address, is not reported
    in use and is accepted by the alias command. *)
Theorem bindLoopbackIP_first_free (goos : GOOS) (env : nat → Attempt)
  (j : nat) :
  (j < 100)%nat →
  (∀ k, (k < j)%nat → skipped goos (env k)) →
  ¬ skipped goos (env j) →
  bindLoopbackIP goos env = (candidate (env j), nil).
Proof.
  intros Hj Hsk Hfree. rewrite bindLoopbackIP_unfold.
  apply bindLoop_first_free; [unfold maxAttempts; lia| |done].
  intros k Hk. apply Hsk. lia.
Qed.

(** X15: when each of the 100 candidates is passed over, the loop stops
    and returns an error with the empty address; it does not go on. *)
Theorem bindLoopbackIP_exhausted (goos : GOOS) (env : nat → Attempt) :
  (∀ k, (k < 100)%nat → skipped goos (env k)) →
  bindLoopbackIP goos env
  = ("", failure "failed to find available loopback IP").
Proof.
  intros Hsk. rewrite bindLoopbackIP_unfold.
  apply bindLoop_exhausted. intros k Hk. apply Hsk.
  unfold maxAttempts in Hk. lia.
Qed.

(** X16: on an operating system other than macOS and Linux the allocation
    always fails, whatever is drawn: the alias command is refused for every
    candidate. *)
Theorem bindLoopbackIP_unsupported (env : nat → Attempt) :
  bindLoopbackIP otherOS env
  = ("", failure "failed to find available loopback IP").
Proof.
  rewrite bindLoopbackIP_unfold. apply bindLoop_exhausted.
  intros k _. right; right. done.
Qed.

End AllocatorMore.

Section AllocatorMoreExamples.
Import os server Spec Samples MoreSamples.

Lemma bindLoopbackIP_first_free_witness :
  (2 < 100)%nat
  ∧ (∀ k, (k < 2)%nat → skipped linux (sampleEnv k))
  ∧ ¬ skipped linux (sampleEnv 2)
  ∧ bindLoopbackIP linux sampleEnv = (candidate (sampleEnv 2), nil).
Proof.
  assert (∀ k, (k < 2)%nat → skipped linux (sampleEnv k)) as Hsk.
  { intros [|[|k]] Hk; [left; reflexivity|right; left; reflexivity|lia]. }
  assert (¬ skipped linux (sampleEnv 2)) as Hfree.
  { intros [H|[H|H]]; [vm_compute in H; discriminate H
                      |vm_compute in H; discriminate H
                      |apply H; reflexivity]. }
  split; [lia|]. split; [exact Hsk|]. split; [exact Hfree|].
  apply (bindLoopbackIP_first_free linux sampleEnv 2); [lia|exact Hsk|].
  exact Hfree.
Defined.

Lemma bindLoopbackIP_exhausted_witness :
  (∀ k, (k < 100)%nat → skipped darwin (reservedEnv k))
  ∧ bindLoopbackIP darwin reservedEnv
    = ("", failure "failed to find available loopback IP").
Proof.
  assert (∀ k, (k < 100)%nat → skipped darwin (reservedEnv k)) as Hsk.
  { intros k _. left. reflexivity. }
  split; [exact Hsk|].
  apply (bindLoopbackIP_exhausted darwin reservedEnv Hsk).
Defined.

End AllocatorMoreExamples.

Section SharedFileMore.
Context {L : GoLib}.
Import os server shutdown.

Lemma hasEntry_head (entry : string) (rest : list string) :
  strings.TrimSpace entry = entry → hasEntry (entry :: rest) entry = true.
Proof.
  intros Ht. unfold hasEntry. cbn [existsb]. by rewrite Ht, eqb_refl_s.
Qed.

(** X17: a repair pass settles: when the managed line has no newline and
    no surrounding white space, a second repair pass right after the first
    changes nothing; the line is not inserted again. *)
Theorem repair_settles (s : Server) (w : World) :
  strings.Contains (nameserverEntry s) nl = false →
  strings.TrimSpace (nameserverEntry s) = nameserverEntry s →
  let w1 := checkAndRestoreLinuxResolver s w in
  checkAndRestoreLinuxResolver s w1 = w1.
Proof.
  intros Hnl Htrim w1.
  assert (w1 = w ∨
          ∃ content,
            hasEntry (strings.Split content nl) (nameserverEntry s) = false
            ∧ w1 = emit (EvWrite resolvConfFile
                           (nameserverEntry s +:+ nl +:+ content))
                     {| files := <[resolvConfFile :=
                                     nameserverEntry s +:+ nl +:+ content]>
                                   (files w);
                        dirs := dirs w; readonly := readonly w;
                        trace := trace w |}) as [Hw1|(content & Hhas & Hw1)].
  { unfold w1, checkAndRestoreLinuxResolver.
    destruct (ReadFile w resolvConfFile) as [content|]; [|by left].
    destruct (hasEntry _ _) eqn:Hhas; cbn [negb]; [by left|].
    unfold tee. case_bool_decide; cbn [snd]; [by left|].
    right. exists content. split; [done|]. cbn [app].
    assert (strings.Join (nameserverEntry s :: strings.Split content nl) nl
            = nameserverEntry s +:+ nl +:+ content) as ->
      by apply Join_Split.
    done. }
  - rewrite Hw1. fold w1. by rewrite Hw1.
  - rewrite Hw1. unfold checkAndRestoreLinuxResolver at 1.
    unfold ReadFile, emit. cbn [files]. rewrite lookup_insert_eq.
    assert (strings.Split (nameserverEntry s +:+ nl +:+ content) nl
            = nameserverEntry s :: strings.Split content nl) as ->
      by (by apply Split_first).
    rewrite hasEntry_head by done. reflexivity.
Qed.

(** X18: what [configureLinuxResolver] read is what the shutdown puts back:
    after a configuration without error the server is marked configured
    and holds the content the file had, and the clean-up at shutdown writes
    exactly that content (when it is not empty and the file can be
    written), whatever the file has become in between. *)
Theorem shutdown_restores (s s1 : Server) (w w1 : World) :
  configureLinuxResolver s w = (nil, s1, w1) →
  ∃ content,
    ReadFile w resolvConfFile = Some content
    ∧ resolverConfigured s1 = true
    ∧ bindIP s1 = bindIP s
    ∧ ∀ w2, content ≠ "" → resolvConfFile ∉ readonly w2 →
        ReadFile (shutdownResolverLinux s1 w2) resolvConfFile = Some content
        ∧ ∀ p, p ≠ resolvConfFile →
            ReadFile (shutdownResolverLinux s1 w2) p = ReadFile w2 p.
Proof.
  unfold configureLinuxResolver.
  destruct (ReadFile w resolvConfFile) as [content|]; [|done].
  intros Hcfg. exists content. split; [done|].
  assert (s1 = {| bindIP := bindIP s; resolverConfigured := true;
                  originalResolvConf := Some content |}) as ->.
  { cbn in Hcfg. destruct (hasEntry _ _); [by inversion Hcfg|].
    destruct (tee _ _ w) as [[] ?]; by inversion Hcfg. }
  cbn. split; [done|]. split; [done|].
  intros w2 _ Hw. unfold shutdownResolverLinux, cleanupLinuxResolver, tee.
  cbn. rewrite bool_decide_eq_false_2 by done. cbn. unfold ReadFile. cbn.
  rewrite lookup_insert_eq. split; [done|].
  intros p Hp. by rewrite lookup_insert_ne.
Qed.

End SharedFileMore.

Section SharedFileMoreExamples.
Import os server shutdown Samples.
#[local] Existing Instance refLib.

Lemma repair_settles_witness :
  strings.Contains (nameserverEntry linuxServer) nl = false
  ∧ strings.TrimSpace (nameserverEntry linuxServer)
    = nameserverEntry linuxServer
  ∧ let w1 := checkAndRestoreLinuxResolver linuxServer plainResolvConf in
    checkAndRestoreLinuxResolver linuxServer w1 = w1.
Proof.
  split; [reflexivity|]. split; [reflexivity|].
  apply (repair_settles linuxServer plainResolvConf); reflexivity.
Defined.

Lemma shutdown_restores_witness :
  let r := configureLinuxResolver linuxServer plainResolvConf in
  r.1.1 = nil
  ∧ ∃ content,
      ReadFile plainResolvConf resolvConfFile = Some content
      ∧ resolverConfigured r.1.2 = true
      ∧ bindIP r.1.2 = bindIP linuxServer
      ∧ ∀ w2, content ≠ "" → resolvConfFile ∉ readonly w2 →
          ReadFile (shutdownResolverLinux r.1.2 w2) resolvConfFile
          = Some content
          ∧ ∀ p, p ≠ resolvConfFile →
              ReadFile (shutdownResolverLinux r.1.2 w2) p = ReadFile w2 p.
Proof.
  intros r. split; [vm_compute; reflexivity|].
  apply (shutdown_restores linuxServer r.1.2 plainResolvConf r.2).
  vm_compute. reflexivity.
Defined.

End SharedFileMoreExamples.

(* ================================================================== *)
(** ** Further properties: configuration *)

Section ConfigMore.
Import reghost types Props.

Lemma validateRecords_none (name : string) (rs : list Record_) (i : nat) :
  validateRecords name i rs = None ↔ Forall wellFormed rs.
Proof.
  revert i. induction rs as [|r rs IH]; intros i; [done|].
  cbn [validateRecords]. rewrite Forall_cons. unfold wellFormed at 1.
  destruct (String.eqb_spec (Domain r) ""); [naive_solver|].
  destruct (String.eqb_spec (IP r) ""); [naive_solver|].
  rewrite IH. naive_solver.
Qed.

Lemma validateRecords_error (name : string) (rs : list Record_) (i : nat)
  (e : ConfigError) :
  validateRecords name i rs = Some e →
  ∃ j r reason,
    e = ErrInvalidRecord name (i + j) reason
    ∧ rs !! j = Some r
    ∧ Forall wellFormed (take j rs)
    ∧ (reason = "domain is empty" ∧ Domain r = ""
       ∨ reason = "ip is empty" ∧ Domain r ≠ "" ∧ IP r = "").
Proof.
  revert i. induction rs as [|r rs IH]; intros i; [done|].
  cbn [validateRecords].
  destruct (String.eqb_spec (Domain r) "") as [Hd|Hd].
  { intros [= <-]. exists 0%nat, r, "domain is empty".
    rewrite Nat.add_0_r. cbn. naive_solver. }
  destruct (String.eqb_spec (IP r) "") as [Hi|Hi].
  { intros [= <-]. exists 0%nat, r, "ip is empty".
    rewrite Nat.add_0_r. cbn. naive_solver. }
  intros (j & x & reason & -> & Hx & Hall & Hwhy)%IH.
  exists (S j), x, reason. split; [f_equal; lia|]. split; [done|].
  split; [|done]. cbn. by apply Forall_cons.
Qed.

Lemma validateSets_none (sets : list (string * list Record_)) :
  validateSets sets = None ↔
  ∀ name rs, (name, rs) ∈ sets → rs ≠ [] ∧ Forall wellFormed rs.
Proof.
  induction sets as [|[name rs] sets IH].
  - split; [|done]. by intros _ ? ? ?%elem_of_nil.
  - cbn [validateSets]. destruct rs as [|r rs]; cbn [length Nat.eqb].
    { split; [done|]. intros H. by destruct (H name []); [left|]. }
    destruct (validateRecords name 0 (r :: rs)) as [e|] eqn:Hv.
    + split; [done|]. intros H.
      destruct (H name (r :: rs)) as [_ Hwf]; [by left|].
      apply (proj2 (validateRecords_none name _ 0%nat)) in Hwf. congruence.
    + rewrite IH. apply (proj1 (validateRecords_none name _ _)) in Hv. split.
      * intros H n x [[= -> ->]|Hin]%elem_of_cons; [done|by apply (H n)].
      * intros H n x Hin. apply (H n). by right.
Qed.

Lemma validateSets_error (sets : list (string * list Record_))
  (e : ConfigError) :
  validateSets sets = Some e →
  ∃ name rs, (name, rs) ∈ sets
    ∧ (e = ErrEmptyRecordSet name ∧ rs = []
       ∨ validateRecords name 0 rs = Some e).
Proof.
  induction sets as [|[name rs] sets IH]; [done|].
  cbn [validateSets]. destruct rs as [|r rs]; cbn [length Nat.eqb].
  { intros [= <-]. exists name, []. split; [by left|by left]. }
  destruct (validateRecords name 0 (r :: rs)) as [e'|] eqn:Hv.
  - intros [= <-]. exists name, (r :: rs). split; [by left|by right].
  - intros (n & x & Hin & Hwhy)%IH. exists n, x. split; [by right|done].
Qed.

Lemma size_zero_empty (m : gmap string (list Record_)) :
  (size m =? 0)%nat = true ↔ m = ∅.
Proof. rewrite Nat.eqb_eq. apply map_size_empty_iff. Qed.

Lemma Validate_none_elim (c : Config) :
  Validate c = None →
  ∃ act, Records c !! ActiveRecord c = Some act
    ∧ ∀ name rs, Records c !! name = Some rs →
                 rs ≠ [] ∧ Forall wellFormed rs.
Proof.
  unfold Validate.
  destruct (String.eqb (ActiveRecord c) ""); [done|].
  destruct (size (Records c) =? 0)%nat; [done|].
  destruct (Records c !! ActiveRecord c) as [act|]; [|done].
  intros H. exists act. split; [done|].
  intros name rs Hl.
  apply (proj1 (validateSets_none (map_to_list (Records c))) H name).
  by apply elem_of_map_to_list.
Qed.

(** X19: [Validate] accepts a configuration exactly when the active name
    is not empty and names one of the record sets, and every record set,
    active or not, is non-empty and made of records with a non-empty domain
    and a non-empty address. *)
Theorem Validate_accepts (c : Config) :
  Validate c = None ↔
  ActiveRecord c ≠ ""
  ∧ is_Some (Records c !! ActiveRecord c)
  ∧ ∀ name rs, Records c !! name = Some rs →
               rs ≠ [] ∧ Forall wellFormed rs.
Proof.
  unfold Validate.
  destruct (String.eqb_spec (ActiveRecord c) "") as [Ha|Ha]; [naive_solver|].
  destruct (size (Records c) =? 0)%nat eqn:Hsz.
  { apply size_zero_empty in Hsz. rewrite Hsz. split; [done|].
    intros (_ & [x Hx] & _). by rewrite lookup_empty in Hx. }
  destruct (Records c !! ActiveRecord c) as [act|] eqn:Hact.
  - rewrite validateSets_none. split.
    + intros H. split; [done|]. split; [by eexists|].
      intros name rs Hl. apply (H name). by apply elem_of_map_to_list.
    + intros (_ & _ & H) name rs Hin. apply (H name).
      by apply elem_of_map_to_list.
  - split; [done|]. by intros (_ & [x ?] & _).
Qed.

(** X20: an error of [Validate] is true of the configuration: the three
    general errors say what is wrong with the active name or the map, an
    empty-set error names a set that is empty, and an invalid-record error
    gives the set, the index of the first record of that set that is not
    well-formed, and which field is empty. *)
Theorem Validate_error_sound (c : Config) (e : ConfigError) :
  Validate c = Some e →
  match e with
  | ErrMissingActiveRecord => ActiveRecord c = ""
  | ErrNoRecords => ActiveRecord c ≠ "" ∧ Records c = ∅
  | ErrActiveRecordNotFound =>
      ActiveRecord c ≠ "" ∧ Records c !! ActiveRecord c = None
  | ErrEmptyRecordSet name => Records c !! name = Some []
  | ErrInvalidRecord name i reason =>
      ∃ rs r, Records c !! name = Some rs
        ∧ rs !! i = Some r
        ∧ Forall wellFormed (take i rs)
        ∧ (reason = "domain is empty" ∧ Domain r = ""
           ∨ reason = "ip is empty" ∧ Domain r ≠ "" ∧ IP r = "")
  end.
Proof.
  unfold Validate.
  destruct (String.eqb_spec (ActiveRecord c) "") as [Ha|Ha].
  { by intros [= <-]. }
  destruct (size (Records c) =? 0)%nat eqn:Hsz.
  { apply size_zero_empty in Hsz. by intros [= <-]. }
  destruct (Records c !! ActiveRecord c) as [act|] eqn:Hact.
  2:{ by intros [= <-]. }
  intros (name & rs & Hin%elem_of_map_to_list & [[-> ->]|Hv])%validateSets_error;
    [done|].
  apply validateRecords_error in Hv as (j & r & reason & -> & Hr & Hall & Hwhy).
  exists rs, r. done.
Qed.

Lemma GetActiveRecords_valid (c : Config) :
  Validate c = None →
  GetActiveRecords c ≠ []
  ∧ Forall wellFormed (GetActiveRecords c)
  ∧ Records c !! ActiveRecord c = Some (GetActiveRecords c).
Proof.
  intros (act & Hact & Hall)%Validate_none_elim.
  unfold GetActiveRecords. rewrite Hact.
  destruct (Hall _ _ Hact). done.
Qed.

End ConfigMore.

Section ConfigLookup.
Context {L : GoLib}.
Import reghost types dns Props.

(** X21: for a configuration that [Validate] accepts, the active records
    are there and well-formed, so that the cache built from them finds
    every domain written in the active set and never gives an empty
    address for a name it finds. *)
Theorem valid_config_serves (c : Config) :
  Validate c = None →
  let cache := NewCache (GetActiveRecords c) in
  GetActiveRecords c ≠ []
  ∧ (∀ r, r ∈ GetActiveRecords c → snd (Lookup cache (Domain r)) = true)
  ∧ (∀ q ip, Lookup cache q = (ip, true) → ip ≠ "").
Proof.
  intros (Hne & Hwf & _)%GetActiveRecords_valid cache.
  split; [done|]. unfold cache, Lookup, NewCache, Resolve, NewResolver.
  cbn [resolver matcher]. split.
  - intros r Hr. rewrite Match_NewMatcher. unfold Spec.firstMatch.
    destruct (find_some_true (Spec.recordMatches (Domain r))
                (GetActiveRecords c) r Hr) as [y ->]; [|done].
    unfold Spec.recordMatches, Spec.exactMatch. by rewrite eqb_refl_s.
  - intros q ip. unfold Match.
    intros (r & Hr & <- & _)%matchLoop_found.
    rewrite Forall_forall in Hwf. by destruct (Hwf r Hr).
Qed.

End ConfigLookup.

Section ConfigExamples.
Import reghost types dns Props MoreSamples.
#[local] Existing Instance refLib.

Lemma Validate_error_sound_witness :
  Validate brokenConfig = Some (ErrInvalidRecord "default" 1 "ip is empty")
  ∧ ∃ rs r, Records brokenConfig !! "default" = Some rs
      ∧ rs !! 1%nat = Some r
      ∧ Forall wellFormed (take 1 rs)
      ∧ ("ip is empty" = "domain is empty" ∧ Domain r = ""
         ∨ "ip is empty" = "ip is empty" ∧ Domain r ≠ "" ∧ IP r = "").
Proof.
  assert (Validate brokenConfig
          = Some (ErrInvalidRecord "default" 1 "ip is empty")) as Hv
    by (vm_compute; reflexivity).
  split; [exact Hv|].
  exact (Validate_error_sound brokenConfig _ Hv).
Defined.

Lemma valid_config_serves_witness :
  Validate validConfig = None
  ∧ GetActiveRecords validConfig ≠ []
  ∧ (∀ r, r ∈ GetActiveRecords validConfig →
          snd (Lookup (NewCache (GetActiveRecords validConfig)) (Domain r))
          = true)
  ∧ (∀ q ip, Lookup (NewCache (GetActiveRecords validConfig)) q = (ip, true)
             → ip ≠ "").
Proof.
  assert (Validate validConfig = None) as Hv by (vm_compute; reflexivity).
  split; [exact Hv|].
  exact (valid_config_serves validConfig Hv).
Defined.

End ConfigExamples.

(* ================================================================== *)
(** ** Further properties: the logger *)

Section LoggerMore.
Import logger.

Lemma wrap64_small (z : Z) : - 2 ^ 63 ≤ z < 2 ^ 63 → wrap64 z = z.
Proof. intros Hz. unfold wrap64. rewrite Z.mod_small; lia. Qed.

(** X22: as long as no single message is longer than the limit, the size
    the logger records stays within the limit: a write that would go past
    it rotates first and starts again from zero. *)
Theorem Write_keeps_size_bound (l : Logger) (len : Z) (io : WriteIO) :
  0 ≤ size l ≤ maxSize l →
  maxSize l < 2 ^ 62 →
  0 ≤ len ≤ maxSize l →
  0 ≤ written io ≤ len →
  let l' := (Write l len io).2 in
  0 ≤ size l' ≤ maxSize l' ∧ maxSize l' = maxSize l.
Proof.
  intros Hs Hm Hl Hw. unfold Write.
  rewrite (wrap64_small (size l + len)) by lia.
  destruct (size l + len >? maxSize l) eqn:Hgt.
  - destruct (rotateOk io); cbn; [|done].
    rewrite wrap64_small by lia. lia.
  - cbn. rewrite wrap64_small by lia. lia.
Qed.

Lemma removeLoop_kept (l : Logger) (now n : Z) (logs : list (string * Z))
  (i : Z) :
  0 ≤ maxFiles l →
  i + Z.of_nat (length logs) = n →
  Z.of_nat (length logs) - Z.of_nat (length (removeLoop l now n i logs))
  ≤ Z.min (n - i) (maxFiles l).
Proof.
  intros Hmax. revert i. induction logs as [|[path mt] logs IH]; intros i Hn.
  - cbn. lia.
  - cbn [removeLoop].
    specialize (IH (i + 1)). cbn [length] in *.
    destruct (Sub now mt >? maxAge l); [cbn [length]; lia|].
    destruct (n - i >? maxFiles l) eqn:Hc; [cbn [length]; lia|].
    lia.
Qed.

Lemma removeLoop_removed (l : Logger) (now n : Z) (logs : list (string * Z))
  (i : Z) (p : string) :
  p ∈ removeLoop l now n i logs →
  ∃ (k : nat) (mt : Z),
    logs !! k = Some (p, mt)
    ∧ (maxAge l < Sub now mt ∨ maxFiles l < n - (i + Z.of_nat k)).
Proof.
  revert i. induction logs as [|[path mt] logs IH]; intros i.
  - by intros ?%elem_of_nil.
  - cbn [removeLoop].
    assert (p ∈ removeLoop l now n (i + 1) logs →
            ∃ (k : nat) (mt0 : Z), ((path, mt) :: logs) !! k = Some (p, mt0)
              ∧ (maxAge l < Sub now mt0
                 ∨ maxFiles l < n - (i + Z.of_nat k))) as Hrest.
    { intros (k & mt0 & Hk & Hwhy)%IH. exists (S k), mt0.
      split; [done|]. destruct Hwhy; [by left|right; lia]. }
    destruct (Sub now mt >? maxAge l) eqn:Hold.
    { intros [->|Hin]%elem_of_cons; [|by apply Hrest].
      exists 0%nat, mt. split; [done|]. left. lia. }
    destruct (n - i >? maxFiles l) eqn:Hcount; [|done].
    intros [->|Hin]%elem_of_cons; [|by apply Hrest].
    exists 0%nat, mt. split; [done|]. right. lia.
Qed.

Lemma statAll_elem (stat : string → option Z) (matches : list string)
  (p : string) (mt : Z) :
  (p, mt) ∈ statAll stat matches → p ∈ matches ∧ stat p = Some mt.
Proof.
  induction matches as [|m matches IH]; cbn [statAll].
  - by intros ?%elem_of_nil.
  - destruct (stat m) as [t|] eqn:Hs.
    + intros [[= -> ->]|Hin]%elem_of_cons; [split; [by left|done]|].
      destruct (IH Hin). split; [by right|done].
    + intros Hin. destruct (IH Hin). split; [by right|done].
Qed.

(** X23: after [cleanOldLogs], of the backups it could stat at most
    [maxFiles] are left; every path it removes is one of the matches, and
    is removed because it is older than [maxAge] or has more than
    [maxFiles] backups from its place to the end of the list. *)
Theorem cleanOldLogs_keeps_few (l : Logger) (matches : list string)
  (stat : string → option Z) (now : Z) :
  0 ≤ maxFiles l →
  let logs := statAll stat matches in
  let removed := cleanOldLogs l (Some matches) stat now in
  Z.of_nat (length logs) - Z.of_nat (length removed) ≤ maxFiles l
  ∧ ∀ p, p ∈ removed →
      p ∈ matches
      ∧ ∃ (k : nat) (mt : Z),
          logs !! k = Some (p, mt) ∧ stat p = Some mt
          ∧ (maxAge l < Sub now mt
             ∨ maxFiles l < Z.of_nat (length logs) - Z.of_nat k).
Proof.
  intros Hmax logs removed. unfold removed, cleanOldLogs. fold logs. split.
  - pose proof (removeLoop_kept l now (Z.of_nat (length logs)) logs 0 Hmax).
    lia.
  - intros p (k & mt & Hk & Hwhy)%removeLoop_removed.
    assert ((p, mt) ∈ logs) as Hin by (by eapply list_elem_of_lookup_2).
    apply statAll_elem in Hin as [Hm Hs].
    split; [done|]. exists k, mt. split; [done|]. split; [done|].
    destruct Hwhy; [by left|right; lia].
Qed.

End LoggerMore.

Section LoggerExamples.
Import logger LogSamples.

Lemma Write_keeps_size_bound_witness :
  let l' := (Write nearlyFull 300 (fullWrite 300)).2 in
  size l' = 300 ∧ 0 ≤ size l' ≤ maxSize l' ∧ maxSize l' = maxSize nearlyFull.
Proof.
  split; [vm_compute; reflexivity|].
  apply (Write_keeps_size_bound nearlyFull 300 (fullWrite 300));
    vm_compute; split; congruence.
Defined.

Lemma cleanOldLogs_keeps_few_witness :
  let matches := ["log.1"; "log.2"; "log.3"] in
  let l := {| size := 0; maxSize := MaxLogSize; maxAge := MaxLogAge;
              maxFiles := 2 |} in
  let stat := λ _ : string, Some 0 in
  cleanOldLogs l (Some matches) stat 1000 = ["log.1"]
  ∧ Z.of_nat (length (statAll stat matches))
    - Z.of_nat (length (cleanOldLogs l (Some matches) stat 1000)) ≤ 2.
Proof.
  intros matches l stat. split; [vm_compute; reflexivity|].
  apply (cleanOldLogs_keeps_few l matches stat 1000). vm_compute. congruence.
Defined.

End LoggerExamples.

(* ================================================================== *)
(** ** Further properties on concrete inputs *)

Section MatcherMoreExamples.
Import reghost Spec MoreSamples.
#[local] Existing Instance refLib.

(** [a.c] is a literal: its dot does not stand for any byte. *)
Lemma Match_exact_only_witness :
  Match (NewMatcher dotRecords) "abc" = (EmptyString, false)
  ∧ Match (NewMatcher dotRecords) "A.C" = ("10.0.0.3", true).
Proof.
  assert (∀ r, r ∈ dotRecords →
               strings.HasPrefix (Domain r) "^" = false
               ∨ regexp_Compile (Domain r) = None) as Hlit.
  { intros r [->|[]%elem_of_nil]%elem_of_cons. left. reflexivity. }
  split.
  - rewrite (Match_exact_only dotRecords "abc" Hlit). vm_compute. reflexivity.
  - rewrite (Match_exact_only dotRecords "A.C" Hlit). vm_compute. reflexivity.
Defined.

Lemma Match_not_found_witness :
  Match (NewMatcher dotRecords) "abc" = (EmptyString, false)
  ∧ ∀ r, r ∈ records (NewMatcher dotRecords) → fqdn (Domain r) ≠ fqdn "abc".
Proof.
  apply (Match_not_found (NewMatcher dotRecords) "abc").
  vm_compute. reflexivity.
Defined.

Lemma Match_query_normal_form_witness :
  Match (NewMatcher dotRecords) (strings.ToUpper "a.c")
  = Match (NewMatcher dotRecords) "a.c"
  ∧ Match (NewMatcher dotRecords) ("a.c" +:+ ".")
    = Match (NewMatcher dotRecords) "a.c".
Proof.
  destruct (Match_query_normal_form (NewMatcher dotRecords) "a.c" eq_refl)
    as [Hup Hdot].
  split; [exact Hup|]. apply Hdot. reflexivity.
Defined.

End MatcherMoreExamples.

Section ManagerMoreExamples.
Import reghost os resolver Spec Inv ManagerSamples LockedSamples.
#[local] Existing Instance refLib.

(** The hint of [c] cannot be written: the pass goes on, manages [b] and
    not [c], and returns no error. *)
Lemma pass_tolerates_failures_witness :
  let r := UpdateResolverFiles managerAB recordsBC worldLocked in
  r.1.1 = nil
  ∧ index (managedDomains r.1.2) "b" = true
  ∧ index (managedDomains r.1.2) "c" = false
  ∧ ∀ s, index (managedDomains r.1.2) s = true ↔
         s ∈ extractDomainSuffixes recordsBC
         ∧ (ReadFile worldLocked (hintPath managerAB s)
            = Some (expectedContent managerAB)
            ∨ hintPath managerAB s ∉ readonly worldLocked).
Proof.
  intros r.
  assert (extractDomainSuffixes recordsBC ≠ []) as Hne
    by (apply (bool_decide_unpack _); vm_compute; exact I).
  destruct (pass_tolerates_failures managerAB recordsBC worldLocked
              Hne eq_refl) as [Hnil Hman].
  fold r in Hnil, Hman.
  split; [exact Hnil|].
  split; [vm_compute; reflexivity|].
  split; [vm_compute; reflexivity|exact Hman].
Defined.

Lemma pass_repairs_hints_witness :
  let r := UpdateResolverFiles managerAB recordsBC worldAB in
  index (managedDomains r.1.2) "c" = true
  ∧ ReadFile worldAB (hintPath managerAB "c") = None
  ∧ ReadFile r.2 (hintPath managerAB "c") = Some (expectedContent managerAB).
Proof.
  intros r.
  assert (extractDomainSuffixes recordsBC ≠ []) as Hne
    by (apply (bool_decide_unpack _); vm_compute; exact I).
  assert (index (managedDomains r.1.2) "c" = true) as Hc
    by (vm_compute; reflexivity).
  split; [exact Hc|]. split; [vm_compute; reflexivity|].
  apply (pass_repairs_hints managerAB recordsBC worldAB Hne eq_refl);
    [|exact Hc].
  assert (Forall (λ d, d ∈ extractDomainSuffixes recordsBC
                       ∨ Forall (λ s, hintPath managerAB d
                                      ≠ hintPath managerAB s)
                           (extractDomainSuffixes recordsBC))
            (elements (dom (managedDomains managerAB)))) as Hall
    by (apply (bool_decide_unpack _); vm_compute; exact I).
  intros d s Hd Hout Hs. rewrite Forall_forall in Hall.
  destruct (Hall d) as [Hin|Hno]; [by apply elem_of_elements|done|].
  rewrite Forall_forall in Hno. by apply Hno.
Defined.

Lemma CleanupAll_after_pass_witness :
  let r := UpdateResolverFiles managerAB recordsBC worldAB in
  let c := CleanupAll r.1.2 r.2 in
  ReadFile r.2 (hintPath managerAB "c") = Some (expectedContent managerAB)
  ∧ ReadFile c.2 (hintPath managerAB "c") = None
  ∧ GetManagedDomains c.1.2 = [].
Proof.
  intros r c. split; [vm_compute; reflexivity|].
  apply (CleanupAll_after_pass managerAB recordsBC worldAB "c").
  - vm_compute. reflexivity.
  - apply (bool_decide_unpack _). vm_compute. exact I.
Defined.

End ManagerMoreExamples.
